(** * Utilities::MPI::Partitioner: local addressing of a distributed index range

    A shallow embedding of the inline member functions of
    [include/deal.II/base/partitioner.h] together with the properties of the
    local numbering that distributed vectors rely on.

    Integers of the C++ code are modelled as [Z] with the wrap-around of the
    unsigned types written out; functions that can raise a deal.II exception
    return a [result]. *)

From Stdlib Require Import ZArith List Bool Lia Sorted.
Import ListNotations.

Local Open Scope Z_scope.

(** ** Build configuration *)

(** Two switches of the deal.II build decide what the header compiles to:
    [DEAL_II_WITH_64BIT_INDICES] selects the width of
    [types::global_dof_index], and the [DEBUG] macro decides whether [Assert]
    checks its condition or expands to nothing. *)
Record Config : Type := mkConfig {
  with_64bit_indices : bool;
  debug_mode : bool
}.

Definition global_dof_index_bits (cfg : Config) : Z :=
  if with_64bit_indices cfg then 64 else 32.

(** Largest value of [types::global_dof_index]. *)
Definition global_dof_index_max (cfg : Config) : Z :=
  2 ^ global_dof_index_bits cfg - 1.

(** [std::numeric_limits<unsigned int>::max()]. *)
Definition unsigned_int_max : Z := 2 ^ 32 - 1.

(** [numbers::invalid_unsigned_int], that is [static_cast<unsigned int>(-1)]:
    the "large number" that [global_to_local] hands out in optimized mode. *)
Definition invalid_unsigned_int : Z := (-1) mod 2 ^ 32.

(** [static_cast<unsigned int>(x)]. *)
Definition to_unsigned_int (x : Z) : Z := x mod 2 ^ 32.

(** Conversion to, and arithmetic in, [types::global_dof_index]. *)
Definition to_global_dof_index (cfg : Config) (x : Z) : Z :=
  x mod 2 ^ global_dof_index_bits cfg.

Definition gdi_add (cfg : Config) (a b : Z) : Z := to_global_dof_index cfg (a + b).
Definition gdi_sub (cfg : Config) (a b : Z) : Z := to_global_dof_index cfg (a - b).

(** Arithmetic in [unsigned int]. *)
Definition uint_add (a b : Z) : Z := to_unsigned_int (a + b).
Definition uint_sub (a b : Z) : Z := to_unsigned_int (a - b).

(** ** Exceptions and the error monad *)

(** [ExcIndexNotPresent] is declared by the class, [ExcNotImplemented] and
    [ExcIndexRange] are the library exceptions named by the assertions of the
    inline functions. The remaining six are the failures that the spec lists
    for attaching ghosts and compiling the schedule. *)
Inductive Exception : Type :=
| ExcIndexNotPresent (global_index : Z) (pid : Z)
| ExcNotImplemented
| ExcIndexRange (index lower upper : Z)
| ExcAlreadyFinalized
| ExcNonContiguousOwnership
| ExcGhostOverlapsOwned (global_index : Z)
| ExcGhostNotInSuperset (global_index : Z)
| ExcInvalidNeighbor (pid : Z)
| ExcOwnershipInconsistency (global_index : Z).

Inductive result (A : Type) : Type :=
| Ok (a : A)
| Throw (e : Exception).

Arguments Ok {A} a.
Arguments Throw {A} e.

Definition bind {A B : Type} (m : result A) (k : A -> result B) : result B :=
  match m with
  | Ok a => k a
  | Throw e => Throw e
  end.

Declare Scope result_scope.
Delimit Scope result_scope with result.
Notation "x <- m ;; k" := (bind m (fun x => k))
  (at level 61, m at next level, right associativity) : result_scope.
Notation "m ;;; k" := (bind m (fun _ => k))
  (at level 61, right associativity) : result_scope.
Local Open Scope result_scope.

(** [Assert(cond, exc)]: checked in debug mode only; in optimized mode neither
    the condition nor the exception object is evaluated. The condition is a
    computation because it may itself call a member function that asserts. *)
Definition Assert (cfg : Config) (cond : result bool) (exc : Exception)
  : result unit :=
  if debug_mode cfg then
    c <- cond ;; if c then Ok tt else Throw exc
  else Ok tt.

(** [AssertIndexRange(index, range)] is
    [Assert(index < range, ExcIndexRange(index, 0, range))]. *)
Definition AssertIndexRange (cfg : Config) (index : Z) (range : result Z)
  : result unit :=
  if debug_mode cfg then
    r <- range ;;
    if index <? r then Ok tt else Throw (ExcIndexRange index 0 r)
  else Ok tt.

(** ** IndexSet *)

Module IndexSet.

(** Modelled from the spec: the class IndexSet ([deal.II/base/index_set.h]
    is not among the sources). The spec describes it as an ordered set of
    non-negative integers with a membership test, the rank of an element
    within the set and the n-th element; it is represented by the list of
    its elements in ascending order. *)
Definition t : Type := list Z.

(** Modelled from the spec: the representation invariant of an ordered set
    of non-negative integers, strictly ascending elements from 0 on. *)
Fixpoint ascending_from (lo : Z) (s : t) : bool :=
  match s with
  | [] => true
  | x :: s' => (lo <=? x) && ascending_from (x + 1) s'
  end.

(** Modelled from the spec: a valid index set, ascending from 0. *)
Definition ascending (s : t) : bool := ascending_from 0 s.

(** Modelled from the spec: the membership test [is_element]. *)
Definition is_element (s : t) (n : Z) : bool :=
  existsb (Z.eqb n) s.

(** Modelled from the spec: [n_elements], the number of elements. *)
Definition n_elements (s : t) : Z := Z.of_nat (length s).

(** Modelled from the spec: [index_within_set], the rank of [n] within the
    set, that is how many elements are smaller. It is asked only for members
    of the set. *)
Definition index_within_set (s : t) (n : Z) : Z :=
  Z.of_nat (length (filter (fun x => x <? n) s)).

(** Modelled from the spec: [nth_index_in_set], the n-th element in
    ascending order; asking beyond the number of elements is outside the
    contract and shown as an index-range failure. *)
Definition nth_index_in_set (s : t) (n : Z) : result Z :=
  match nth_error s (Z.to_nat n) with
  | Some x => if 0 <=? n then Ok x else Throw (ExcIndexRange n 0 (n_elements s))
  | None => Throw (ExcIndexRange n 0 (n_elements s))
  end.

(** Modelled from the spec: equality of index sets, [operator==]: the same
    elements. *)
Fixpoint equal (s1 s2 : t) : bool :=
  match s1, s2 with
  | [], [] => true
  | x :: s1', y :: s2' => (x =? y) && equal s1' s2'
  | _, _ => false
  end.

End IndexSet.

(** ** The Partitioner object *)

(** An MPI communicator is an opaque handle. *)
Definition MPI_Comm : Type := Z.

(** The private data members of [class Partitioner], under their C++ names. *)
Record Partitioner : Type := mkPartitioner {
  global_size : Z;
  locally_owned_range_data : IndexSet.t;
  local_range_data : Z * Z;
  ghost_indices_data : IndexSet.t;
  n_ghost_indices_data : Z;
  ghost_targets_data : list (Z * Z);
  import_indices_data : list (Z * Z);
  n_import_indices_data : Z;
  import_targets_data : list (Z * Z);
  import_indices_chunks_by_rank_data : list Z;
  n_ghost_indices_in_larger_set : Z;
  ghost_indices_subset_chunks_by_rank_data : list Z;
  ghost_indices_subset_data : list (Z * Z);
  my_pid : Z;
  n_procs : Z;
  communicator : MPI_Comm;
  have_ghost_indices : bool
}.

(** ** Inline member functions *)

Definition size (p : Partitioner) : Z := global_size p.

Definition locally_owned_range (p : Partitioner) : IndexSet.t :=
  locally_owned_range_data p.

Definition local_range (p : Partitioner) : Z * Z := local_range_data p.

Definition local_size (cfg : Config) (p : Partitioner) : result Z :=
  let size := gdi_sub cfg (snd (local_range_data p)) (fst (local_range_data p)) in
  Assert cfg (Ok (size <=? unsigned_int_max)) ExcNotImplemented ;;;
  Ok (to_unsigned_int size).

Definition in_local_range (p : Partitioner) (global_index : Z) : bool :=
  (fst (local_range_data p) <=? global_index) &&
  (global_index <? snd (local_range_data p)).

Definition ghost_indices (p : Partitioner) : IndexSet.t := ghost_indices_data p.

Definition is_ghost_entry (p : Partitioner) (global_index : Z) : bool :=
  if in_local_range p global_index then false
  else IndexSet.is_element (ghost_indices p) global_index.

Definition global_to_local (cfg : Config) (p : Partitioner) (global_index : Z)
  : result Z :=
  Assert cfg (Ok (in_local_range p global_index || is_ghost_entry p global_index))
         (ExcIndexNotPresent global_index (my_pid p)) ;;;
  if in_local_range p global_index then
    Ok (to_unsigned_int (gdi_sub cfg global_index (fst (local_range_data p))))
  else if is_ghost_entry p global_index then
    ls <- local_size cfg p ;;
    Ok (uint_add ls
          (to_unsigned_int
             (IndexSet.index_within_set (ghost_indices_data p) global_index)))
  else
    Ok invalid_unsigned_int.

Definition local_to_global (cfg : Config) (p : Partitioner) (local_index : Z)
  : result Z :=
  AssertIndexRange cfg local_index
    (ls <- local_size cfg p ;; Ok (uint_add ls (n_ghost_indices_data p))) ;;;
  ls <- local_size cfg p ;;
  if local_index <? ls then
    Ok (gdi_add cfg (fst (local_range_data p)) (to_global_dof_index cfg local_index))
  else
    ls' <- local_size cfg p ;;
    IndexSet.nth_index_in_set (ghost_indices_data p) (uint_sub local_index ls').

Definition n_ghost_indices (p : Partitioner) : Z := n_ghost_indices_data p.

Definition ghost_indices_within_larger_ghost_set (p : Partitioner) : list (Z * Z) :=
  ghost_indices_subset_data p.

Definition ghost_targets (p : Partitioner) : list (Z * Z) := ghost_targets_data p.

Definition import_indices (p : Partitioner) : list (Z * Z) := import_indices_data p.

Definition n_import_indices (p : Partitioner) : Z := n_import_indices_data p.

Definition import_targets (p : Partitioner) : list (Z * Z) := import_targets_data p.

Definition import_indices_chunks_by_rank (p : Partitioner) : list Z :=
  import_indices_chunks_by_rank_data p.

Definition ghost_indices_subset_chunks_by_rank (p : Partitioner) : list Z :=
  ghost_indices_subset_chunks_by_rank_data p.

Definition this_mpi_process (p : Partitioner) : Z := my_pid p.

Definition n_mpi_processes (p : Partitioner) : Z := n_procs p.

Definition get_communicator (p : Partitioner) : MPI_Comm := communicator p.

Definition get_mpi_communicator (p : Partitioner) : MPI_Comm := communicator p.

Definition ghost_indices_initialized (p : Partitioner) : bool :=
  have_ghost_indices p.

(** ** Well-formed partitioners *)

(** The invariants of the data model that the local numbering relies on: the
    owned range is a half-open interval of representable indices, the ghost
    set is an ordered set disjoint from the owned range, its size is cached
    in [n_ghost_indices_data], and the local index space (owned entries
    followed by ghosts) is addressable by [unsigned int]. *)
Definition well_formed (cfg : Config) (p : Partitioner) : bool :=
  (0 <=? fst (local_range_data p)) &&
  (fst (local_range_data p) <=? snd (local_range_data p)) &&
  (snd (local_range_data p) <=? global_dof_index_max cfg) &&
  (snd (local_range_data p) - fst (local_range_data p) + n_ghost_indices_data p
     <=? unsigned_int_max) &&
  IndexSet.ascending (ghost_indices_data p) &&
  forallb (fun g => negb (in_local_range p g)) (ghost_indices_data p) &&
  (n_ghost_indices_data p =? IndexSet.n_elements (ghost_indices_data p)).

(** The owned range alone: what [local_size] needs. *)
Definition local_range_fits (cfg : Config) (p : Partitioner) : Prop :=
  0 <= fst (local_range_data p) <= snd (local_range_data p) /\
  snd (local_range_data p) <= global_dof_index_max cfg /\
  snd (local_range_data p) - fst (local_range_data p) <= unsigned_int_max.

(** Number of locally owned indices, as a mathematical integer. *)
Definition owned_count (p : Partitioner) : Z :=
  snd (local_range_data p) - fst (local_range_data p).

(** ** Operations defined outside the header *)

(** Modelled from the spec: [Partitioner::is_compatible], declared in the
    header and defined in [source/base/partitioner.cc], which is not among
    the sources. The spec (4.5) and the header comment both describe it as a
    local comparison of the local size and of the ghost index sets. *)
Definition is_compatible (cfg : Config) (p part : Partitioner) : result bool :=
  ls <- local_size cfg p ;;
  ls' <- local_size cfg part ;;
  Ok ((ls =? ls') &&
      IndexSet.equal (ghost_indices_data p) (ghost_indices_data part)).

(** What the process group contributes to the compilation of the schedule:
    the owned range of every process, by process id, and the requests that
    arrive in the discovery exchange, each a sender with the global indices
    it holds as ghosts of this process. *)
Record Exchange : Type := mkExchange {
  owned_ranges : list (Z * Z);
  requests : list (Z * list Z)
}.

(** Modelled from the spec: the lookup of the owner of a global index in the
    globally known partition of ranges (4.2, step 1); the owner of g is the
    process whose owned range contains g. *)
Fixpoint find_owner (ranges : list (Z * Z)) (pid : Z) (g : Z) : option Z :=
  match ranges with
  | [] => None
  | (lower, upper) :: ranges' =>
      if (lower <=? g) && (g <? upper) then Some pid
      else find_owner ranges' (pid + 1) g
  end.

Definition owner_of (ranges : list (Z * Z)) (g : Z) : option Z :=
  find_owner ranges 0 g.

Definition owned_by (ranges : list (Z * Z)) (pid : Z) (g : Z) : bool :=
  match owner_of ranges g with
  | Some q => q =? pid
  | None => false
  end.

Definition process_ids (n : nat) : list Z := map Z.of_nat (seq 0 n).

(** Modelled from the spec: grouping of the ghost set by owning process
    (4.2, step 1): one pair (neighbor, count) for every process that owns at
    least one ghost index, in ascending order of the neighbor id. *)
Definition group_by_owner (ranges : list (Z * Z)) (ghosts : IndexSet.t)
  : list (Z * Z) :=
  filter (fun t => 0 <? snd t)
    (map (fun pid =>
            (pid, Z.of_nat (length (filter (owned_by ranges pid) ghosts))))
       (process_ids (length ranges))).

(** Modelled from the spec: consecutive indices coalesced into half-open
    runs (first, one past the last) (4.2, step 3); a repeated index starts
    a run of its own. *)
Fixpoint coalesce_runs (l : list Z) : list (Z * Z) :=
  match l with
  | [] => []
  | x :: l' =>
      match coalesce_runs l' with
      | (b, e) :: runs =>
          if b =? x + 1 then (x, e) :: runs else (x, x + 1) :: (b, e) :: runs
      | [] => [(x, x + 1)]
      end
  end.

(** Modelled from the spec: ordering by neighbor id (4.2, step 4), by
    insertion of a request into a list ordered by sender id. *)
Fixpoint insert_by_sender (r : Z * list Z) (l : list (Z * list Z))
  : list (Z * list Z) :=
  match l with
  | [] => [r]
  | r' :: l' =>
      if fst r <=? fst r' then r :: r' :: l' else r' :: insert_by_sender r l'
  end.

Definition sort_by_sender (l : list (Z * list Z)) : list (Z * list Z) :=
  fold_right insert_by_sender [] l.

(** The first element of [l] that satisfies [bad] is reported with [exc]. *)
Definition reject_first (bad : Z -> bool) (exc : Z -> Exception) (l : list Z)
  : result unit :=
  match find bad l with
  | Some x => Throw (exc x)
  | None => Ok tt
  end.

(** Modelled from the spec: the failures of the exchange (4.2): a sender
    outside [0, process_count) is an invalid neighbor, a requested index
    outside the owned range an ownership inconsistency. *)
Fixpoint check_requests (p : Partitioner) (reqs : list (Z * list Z))
  : result unit :=
  match reqs with
  | [] => Ok tt
  | (sender, indices) :: reqs' =>
      (if (0 <=? sender) && (sender <? n_procs p) then Ok tt
       else Throw (ExcInvalidNeighbor sender)) ;;;
      reject_first (fun g => negb (in_local_range p g))
                   ExcOwnershipInconsistency indices ;;;
      check_requests p reqs'
  end.

(** Modelled from the spec: the validation that attaching ghosts performs
    before anything is stored (4.1, 4.2 and 7): ghosts disjoint from the
    owned range, ghosts within the superset when one is given, every ghost
    owned by some process of the group, and requests that come from valid
    neighbors and ask for owned indices only. *)
Definition check_ghost_indices (ex : Exchange) (ghost_indices_in larger : IndexSet.t)
  (p : Partitioner) : result unit :=
  reject_first (in_local_range p) ExcGhostOverlapsOwned ghost_indices_in ;;;
  (match larger with
   | [] => Ok tt
   | _ => reject_first (fun g => negb (IndexSet.is_element larger g))
                       ExcGhostNotInSuperset ghost_indices_in
   end) ;;;
  reject_first (fun g => match owner_of (owned_ranges ex) g with
                         | Some _ => false
                         | None => true
                         end)
               ExcOwnershipInconsistency ghost_indices_in ;;;
  check_requests p (requests ex).

(** Modelled from the spec: [Partitioner::set_ghost_indices], declared in
    the header and defined in [source/base/partitioner.cc], which is not
    among the sources. Following 4.1 and 4.2 it attaches the ghost set to a
    partitioner whose ghosts have not been set, and fails with
    AlreadyFinalized otherwise; a failed call stores nothing. The function
    returns the partitioner after the call together with the outcome. The
    per-rank chunk caches, of which the spec fixes nothing, keep their
    value. *)
Definition set_ghost_indices (ex : Exchange)
  (ghost_indices_in larger_ghost_index_set : IndexSet.t) (p : Partitioner)
  : Partitioner * result unit :=
  if have_ghost_indices p then (p, Throw ExcAlreadyFinalized)
  else
    match check_ghost_indices ex ghost_indices_in larger_ghost_index_set p with
    | Throw e => (p, Throw e)
    | Ok _ =>
        let received :=
          filter (fun r => negb (Nat.eqb (length (snd r)) 0))
                 (sort_by_sender (requests ex)) in
        let lower := fst (local_range_data p) in
        ({| global_size := global_size p;
            locally_owned_range_data := locally_owned_range_data p;
            local_range_data := local_range_data p;
            ghost_indices_data := ghost_indices_in;
            n_ghost_indices_data := IndexSet.n_elements ghost_indices_in;
            ghost_targets_data :=
              group_by_owner (owned_ranges ex) ghost_indices_in;
            import_indices_data :=
              flat_map (fun r => coalesce_runs (map (fun g => g - lower) (snd r)))
                       received;
            n_import_indices_data :=
              fold_right (fun r acc => Z.of_nat (length (snd r)) + acc) 0 received;
            import_targets_data :=
              map (fun r => (fst r, Z.of_nat (length (snd r)))) received;
            import_indices_chunks_by_rank_data :=
              import_indices_chunks_by_rank_data p;
            n_ghost_indices_in_larger_set :=
              match larger_ghost_index_set with
              | [] => IndexSet.n_elements ghost_indices_in
              | _ => IndexSet.n_elements larger_ghost_index_set
              end;
            ghost_indices_subset_chunks_by_rank_data :=
              ghost_indices_subset_chunks_by_rank_data p;
            ghost_indices_subset_data :=
              match larger_ghost_index_set with
              | [] => []
              | _ => coalesce_runs
                       (map (IndexSet.index_within_set larger_ghost_index_set)
                            ghost_indices_in)
              end;
            my_pid := my_pid p;
            n_procs := n_procs p;
            communicator := communicator p;
            have_ghost_indices := true |},
         Ok tt)
    end.

(** Modelled from the spec: owned ranges that partition [lower, size): each
    range starts where the previous one ends, the first at [lower] and the
    last ending at [size]. *)
Fixpoint partitions_from (lower : Z) (ranges : list (Z * Z)) (size : Z) : bool :=
  match ranges with
  | [] => lower =? size
  | (l, u) :: ranges' => (l =? lower) && (l <=? u) && partitions_from u ranges' size
  end.

(** Sum of the second components of a list of (neighbor, count) pairs. *)
Definition sum_counts (l : list (Z * Z)) : Z :=
  fold_right (fun t acc => snd t + acc) 0 l.

(** Sum of a function over a list of process ids. *)
Definition sum_over (f : Z -> Z) (pids : list Z) : Z :=
  fold_right (fun pid acc => f pid + acc) 0 pids.

(** ** Examples

    Process 0 of four, with twelve global indices split into ranges of three
    and the ghost set {4, 7}. *)
Definition example_partitioner : Partitioner := {|
  global_size := 12;
  locally_owned_range_data := [0; 1; 2];
  local_range_data := (0, 3);
  ghost_indices_data := [4; 7];
  n_ghost_indices_data := 2;
  ghost_targets_data := [(1, 1); (2, 1)];
  import_indices_data := [];
  n_import_indices_data := 0;
  import_targets_data := [];
  import_indices_chunks_by_rank_data := [0];
  n_ghost_indices_in_larger_set := 2;
  ghost_indices_subset_chunks_by_rank_data := [0; 1; 2];
  ghost_indices_subset_data := [(0, 2)];
  my_pid := 0;
  n_procs := 4;
  communicator := 0;
  have_ghost_indices := true
|}.

Definition debug_build : Config :=
  {| with_64bit_indices := true; debug_mode := true |}.

Definition optimized_build : Config :=
  {| with_64bit_indices := true; debug_mode := false |}.

(** A second example: process 1 of the same group in a build with 32-bit
    indices and [Assert] compiled out; it owns [3, 6) and has no ghosts. *)
Definition example_partitioner_1 : Partitioner := {|
  global_size := 12;
  locally_owned_range_data := [3; 4; 5];
  local_range_data := (3, 6);
  ghost_indices_data := [];
  n_ghost_indices_data := 0;
  ghost_targets_data := [];
  import_indices_data := [(1, 2)];
  n_import_indices_data := 1;
  import_targets_data := [(0, 1)];
  import_indices_chunks_by_rank_data := [0; 1];
  n_ghost_indices_in_larger_set := 0;
  ghost_indices_subset_chunks_by_rank_data := [0];
  ghost_indices_subset_data := [];
  my_pid := 1;
  n_procs := 4;
  communicator := 0;
  have_ghost_indices := true
|}.

Definition optimized_build_32 : Config :=
  {| with_64bit_indices := false; debug_mode := false |}.

(** A partitioner, possible with 64-bit indices only, whose owned range
    [0, 2^32) holds one index more than [unsigned int] can count. *)
Definition oversized_partitioner : Partitioner := {|
  global_size := 2 ^ 32;
  locally_owned_range_data := [];
  local_range_data := (0, 2 ^ 32);
  ghost_indices_data := [];
  n_ghost_indices_data := 0;
  ghost_targets_data := [];
  import_indices_data := [];
  n_import_indices_data := 0;
  import_targets_data := [];
  import_indices_chunks_by_rank_data := [];
  n_ghost_indices_in_larger_set := 0;
  ghost_indices_subset_chunks_by_rank_data := [];
  ghost_indices_subset_data := [];
  my_pid := 0;
  n_procs := 1;
  communicator := 0;
  have_ghost_indices := false
|}.

(** The four-process scenario: four processes, twelve indices, ranges of
    three; process 0 asks for {4, 7} and nobody asks process 0. *)
Definition example_ranges : list (Z * Z) := [(0, 3); (3, 6); (6, 9); (9, 12)].

Definition example_exchange_0 : Exchange :=
  {| owned_ranges := example_ranges; requests := [] |}.

Definition example_exchange_1 : Exchange :=
  {| owned_ranges := example_ranges; requests := [(0, [4])] |}.

Definition example_owned_only (pid lower upper : Z) : Partitioner := {|
  global_size := 12;
  locally_owned_range_data := map (fun k => lower + Z.of_nat k)
                                  (seq 0 (Z.to_nat (upper - lower)));
  local_range_data := (lower, upper);
  ghost_indices_data := [];
  n_ghost_indices_data := 0;
  ghost_targets_data := [];
  import_indices_data := [];
  n_import_indices_data := 0;
  import_targets_data := [];
  import_indices_chunks_by_rank_data := [];
  n_ghost_indices_in_larger_set := 0;
  ghost_indices_subset_chunks_by_rank_data := [];
  ghost_indices_subset_data := [];
  my_pid := pid;
  n_procs := 4;
  communicator := 0;
  have_ghost_indices := false
|}.

(** A partitioner, possible with 64-bit indices only, whose owned range
    [0, 2^33) is twice as long as [unsigned int] can count. *)
Definition wide_partitioner : Partitioner := {|
  global_size := 2 ^ 33;
  locally_owned_range_data := [];
  local_range_data := (0, 2 ^ 33);
  ghost_indices_data := [];
  n_ghost_indices_data := 0;
  ghost_targets_data := [];
  import_indices_data := [];
  n_import_indices_data := 0;
  import_targets_data := [];
  import_indices_chunks_by_rank_data := [];
  n_ghost_indices_in_larger_set := 0;
  ghost_indices_subset_chunks_by_rank_data := [];
  ghost_indices_subset_data := [];
  my_pid := 0;
  n_procs := 1;
  communicator := 0;
  have_ghost_indices := false
|}.

Definition debug_build_32 : Config :=
  {| with_64bit_indices := false; debug_mode := true |}.

(** A partitioner, possible with 64-bit indices only, whose owned range
    [0, 2^32 - 2) fits [unsigned int] and whose three ghosts lie beyond it:
    owned and ghost entries together are 2^32 + 1, one more than
    [unsigned int] can address. *)
Definition overflowing_partitioner : Partitioner := {|
  global_size := 2 ^ 32 + 3;
  locally_owned_range_data := [];
  local_range_data := (0, 2 ^ 32 - 2);
  ghost_indices_data := [2 ^ 32; 2 ^ 32 + 1; 2 ^ 32 + 2];
  n_ghost_indices_data := 3;
  ghost_targets_data := [(1, 3)];
  import_indices_data := [];
  n_import_indices_data := 0;
  import_targets_data := [];
  import_indices_chunks_by_rank_data := [];
  n_ghost_indices_in_larger_set := 3;
  ghost_indices_subset_chunks_by_rank_data := [];
  ghost_indices_subset_data := [];
  my_pid := 0;
  n_procs := 2;
  communicator := 0;
  have_ghost_indices := true
|}.

(** A global index is present when it is owned or ghost: the condition that
    [global_to_local] asserts. *)
Definition present (p : Partitioner) (g : Z) : bool :=
  in_local_range p g || is_ghost_entry p g.

(** ** Arithmetic facts about the integer types *)

Lemma global_dof_index_bits_ge_32 (cfg : Config) : 32 <= global_dof_index_bits cfg.
Proof. unfold global_dof_index_bits; destruct (with_64bit_indices cfg); lia. Qed.

Lemma unsigned_int_max_le_gdi_max (cfg : Config) :
  unsigned_int_max <= global_dof_index_max cfg.
Proof.
  unfold unsigned_int_max, global_dof_index_max, global_dof_index_bits.
  destruct (with_64bit_indices cfg); lia.
Qed.

Lemma to_unsigned_int_small (x : Z) :
  0 <= x <= unsigned_int_max -> to_unsigned_int x = x.
Proof.
  unfold to_unsigned_int, unsigned_int_max; intros H.
  apply Z.mod_small; lia.
Qed.

Lemma to_global_dof_index_small (cfg : Config) (x : Z) :
  0 <= x <= global_dof_index_max cfg -> to_global_dof_index cfg x = x.
Proof.
  unfold to_global_dof_index, global_dof_index_max; intros H.
  apply Z.mod_small; lia.
Qed.

Lemma invalid_unsigned_int_eq : invalid_unsigned_int = unsigned_int_max.
Proof. reflexivity. Qed.

(** ** Facts about ordered index sets *)

Module IndexSetFacts.
Import IndexSet.

Lemma is_element_In (s : t) (n : Z) : is_element s n = true <-> In n s.
Proof.
  unfold is_element; rewrite existsb_exists; split.
  - intros [x [Hin Heq]]. apply Z.eqb_eq in Heq. now subst.
  - intros Hin. exists n. split; [assumption | apply Z.eqb_refl].
Qed.

Lemma ascending_from_bound (lo : Z) (s : t) :
  ascending_from lo s = true -> Forall (fun x => lo <= x) s.
Proof.
  revert lo; induction s as [| a s IH]; intros lo H; simpl in H.
  - constructor.
  - apply andb_prop in H as [Ha Hs]. apply Z.leb_le in Ha.
    constructor; [assumption |].
    specialize (IH _ Hs).
    eapply Forall_impl; [| exact IH]. simpl; intros; lia.
Qed.

Lemma filter_below_empty (n : Z) (s : t) :
  Forall (fun x => n <= x) s -> filter (fun x => x <? n) s = [].
Proof.
  induction 1 as [| a s Ha _ IH]; simpl; [reflexivity |].
  destruct (Z.ltb_spec a n); [lia | assumption].
Qed.

(** The rank of the k-th element is k. *)
Lemma index_within_set_nth (lo : Z) (s : t) (k : nat) (x : Z) :
  ascending_from lo s = true ->
  nth_error s k = Some x ->
  index_within_set s x = Z.of_nat k.
Proof.
  unfold index_within_set.
  revert lo k; induction s as [| a s IH]; intros lo k Hasc Hnth.
  - destruct k; discriminate.
  - simpl in Hasc. apply andb_prop in Hasc as [_ Hs].
    destruct k as [| k]; simpl in Hnth.
    + injection Hnth as ->. simpl.
      rewrite Z.ltb_irrefl.
      rewrite filter_below_empty; [reflexivity |].
      eapply Forall_impl; [| exact (ascending_from_bound _ _ Hs)].
      simpl; intros; lia.
    + assert (Hx : a + 1 <= x).
      { pose proof (ascending_from_bound _ _ Hs) as Hall.
        rewrite Forall_forall in Hall.
        apply Hall. eapply nth_error_In; eassumption. }
      pose proof (IH _ _ Hs Hnth) as Hrank.
      simpl. destruct (Z.ltb_spec a x); [| lia].
      simpl length. lia.
Qed.

(** The element at the rank of a member is that member. *)
Lemma nth_index_within_set (lo : Z) (s : t) (x : Z) :
  ascending_from lo s = true ->
  In x s ->
  nth_error s (length (filter (fun y => y <? x) s)) = Some x.
Proof.
  revert lo; induction s as [| a s IH]; intros lo Hasc Hin; [contradiction |].
  simpl in Hasc. apply andb_prop in Hasc as [_ Hs].
  destruct Hin as [-> | Hin]; simpl.
  - rewrite Z.ltb_irrefl.
    rewrite filter_below_empty; [reflexivity |].
    eapply Forall_impl; [| exact (ascending_from_bound _ _ Hs)].
    simpl; intros; lia.
  - assert (Hx : a + 1 <= x).
    { pose proof (ascending_from_bound _ _ Hs) as Hall.
      rewrite Forall_forall in Hall. now apply Hall. }
    destruct (Z.ltb_spec a x); [| lia].
    simpl. eapply IH; eassumption.
Qed.

Lemma index_within_set_bound (s : t) (x : Z) :
  In x s -> 0 <= index_within_set s x < n_elements s.
Proof.
  unfold index_within_set, n_elements.
  induction s as [| a s IH]; intros Hin; [contradiction |].
  simpl. destruct Hin as [-> | Hin].
  - rewrite Z.ltb_irrefl.
    pose proof (filter_length_le (fun y => y <? x) s). simpl length. lia.
  - specialize (IH Hin).
    destruct (a <? x); simpl length; lia.
Qed.

(** Later elements are larger. *)
Lemma nth_error_ascending (lo : Z) (s : t) (i j : nat) (x y : Z) :
  ascending_from lo s = true ->
  (i < j)%nat ->
  nth_error s i = Some x ->
  nth_error s j = Some y ->
  x < y.
Proof.
  revert lo i j; induction s as [| a s IH]; intros lo i j Hasc Hij Hi Hj.
  - destruct i; discriminate.
  - simpl in Hasc. apply andb_prop in Hasc as [_ Hs].
    destruct j as [| j]; [lia |].
    simpl in Hj. destruct i as [| i]; simpl in Hi.
    + injection Hi as ->.
      pose proof (ascending_from_bound _ _ Hs) as Hall.
      rewrite Forall_forall in Hall.
      specialize (Hall y (nth_error_In _ _ Hj)). lia.
    + eapply (IH _ i j); try eassumption. lia.
Qed.

Lemma nth_index_in_set_spec (s : t) (n : Z) (x : Z) :
  0 <= n ->
  nth_error s (Z.to_nat n) = Some x ->
  nth_index_in_set s n = Ok x.
Proof.
  intros Hn Hnth. unfold nth_index_in_set. rewrite Hnth.
  destruct (Z.leb_spec 0 n); [reflexivity | lia].
Qed.


End IndexSetFacts.

(** ** Local addressing *)

Lemma well_formed_inv (cfg : Config) (p : Partitioner) :
  well_formed cfg p = true ->
  local_range_fits cfg p /\
  owned_count p + n_ghost_indices_data p <= unsigned_int_max /\
  IndexSet.ascending (ghost_indices_data p) = true /\
  (forall g, In g (ghost_indices_data p) -> in_local_range p g = false) /\
  n_ghost_indices_data p = IndexSet.n_elements (ghost_indices_data p).
Proof.
  unfold well_formed, local_range_fits, owned_count. intros H.
  repeat (apply andb_prop in H as [H ?]).
  repeat match goal with
         | h : (_ <=? _) = true |- _ => apply Z.leb_le in h
         | h : (_ =? _) = true |- _ => apply Z.eqb_eq in h
         end.
  apply Z.leb_le in H.
  assert (0 <= n_ghost_indices_data p)
    by (unfold IndexSet.n_elements in *; lia).
  repeat split; try assumption; try lia.
  intros g Hg.
  match goal with h : forallb _ _ = true |- _ => rewrite forallb_forall in h;
    specialize (h g Hg); now apply negb_true_iff in h end.
Qed.

Lemma in_local_range_iff (p : Partitioner) (g : Z) :
  in_local_range p g = true <->
  fst (local_range_data p) <= g < snd (local_range_data p).
Proof.
  unfold in_local_range. rewrite andb_true_iff, Z.leb_le, Z.ltb_lt. tauto.
Qed.

Lemma Assert_holds (cfg : Config) (exc : Exception) :
  Assert cfg (Ok true) exc = Ok tt.
Proof. unfold Assert; destruct (debug_mode cfg); reflexivity. Qed.

Lemma Assert_fails (cfg : Config) (exc : Exception) :
  Assert cfg (Ok false) exc = if debug_mode cfg then Throw exc else Ok tt.
Proof. unfold Assert; destruct (debug_mode cfg); reflexivity. Qed.

Lemma local_size_fits (cfg : Config) (p : Partitioner) :
  local_range_fits cfg p -> local_size cfg p = Ok (owned_count p).
Proof.
  unfold local_range_fits, owned_count, local_size, gdi_sub.
  intros (Hle & Hmax & Hspan).
  pose proof (unsigned_int_max_le_gdi_max cfg).
  rewrite to_global_dof_index_small by lia.
  destruct (Z.leb_spec (snd (local_range_data p) - fst (local_range_data p))
                       unsigned_int_max); [| lia].
  rewrite Assert_holds. simpl.
  now rewrite to_unsigned_int_small by lia.
Qed.

Lemma global_to_local_owned (cfg : Config) (p : Partitioner) (g : Z) :
  local_range_fits cfg p ->
  in_local_range p g = true ->
  global_to_local cfg p g = Ok (g - fst (local_range_data p)).
Proof.
  intros (Hle & Hmax & Hspan) Hin.
  unfold global_to_local. rewrite Hin. simpl orb.
  rewrite Assert_holds. simpl.
  apply in_local_range_iff in Hin.
  pose proof (unsigned_int_max_le_gdi_max cfg).
  unfold gdi_sub.
  rewrite to_global_dof_index_small by lia.
  now rewrite to_unsigned_int_small by lia.
Qed.

Lemma global_to_local_ghost (cfg : Config) (p : Partitioner) (g : Z) :
  well_formed cfg p = true ->
  in_local_range p g = false ->
  IndexSet.is_element (ghost_indices_data p) g = true ->
  global_to_local cfg p g =
  Ok (owned_count p + IndexSet.index_within_set (ghost_indices_data p) g).
Proof.
  intros Hwf Hout Hel.
  destruct (well_formed_inv _ _ Hwf) as (Hfits & Hspace & Hasc & Hdisj & Hn).
  unfold global_to_local, is_ghost_entry, ghost_indices.
  rewrite Hout, Hel. simpl orb.
  rewrite Assert_holds. simpl.
  rewrite (local_size_fits _ _ Hfits). simpl.
  apply IndexSetFacts.is_element_In in Hel.
  pose proof (IndexSetFacts.index_within_set_bound _ _ Hel) as Hrank.
  destruct Hfits as (Hle & Hmax & Hspan). unfold owned_count in *.
  unfold uint_add.
  rewrite (to_unsigned_int_small (IndexSet.index_within_set _ _)) by lia.
  now rewrite to_unsigned_int_small by lia.
Qed.

Lemma global_to_local_absent (cfg : Config) (p : Partitioner) (g : Z) :
  in_local_range p g = false ->
  IndexSet.is_element (ghost_indices_data p) g = false ->
  global_to_local cfg p g =
  if debug_mode cfg then Throw (ExcIndexNotPresent g (my_pid p))
  else Ok invalid_unsigned_int.
Proof.
  intros Hout Hel.
  unfold global_to_local, is_ghost_entry, ghost_indices.
  rewrite Hout, Hel. simpl orb.
  rewrite Assert_fails. destruct (debug_mode cfg); reflexivity.
Qed.

Lemma AssertIndexRange_holds (cfg : Config) (i r : Z) :
  i < r -> AssertIndexRange cfg i (Ok r) = Ok tt.
Proof.
  intros H. unfold AssertIndexRange. destruct (debug_mode cfg); [| reflexivity].
  simpl. destruct (Z.ltb_spec i r); [reflexivity | lia].
Qed.

Lemma local_to_global_owned (cfg : Config) (p : Partitioner) (i : Z) :
  well_formed cfg p = true ->
  0 <= i < owned_count p ->
  local_to_global cfg p i = Ok (fst (local_range_data p) + i).
Proof.
  intros Hwf Hi.
  destruct (well_formed_inv _ _ Hwf) as (Hfits & Hspace & Hasc & Hdisj & Hn).
  unfold local_to_global.
  rewrite (local_size_fits _ _ Hfits). simpl bind at 1.
  assert (0 <= n_ghost_indices_data p)
    by (rewrite Hn; unfold IndexSet.n_elements; lia).
  destruct Hfits as (Hle & Hmax & Hspan). unfold owned_count in *.
  unfold uint_add. rewrite to_unsigned_int_small by lia.
  rewrite AssertIndexRange_holds by lia. simpl.
  destruct (Z.ltb_spec i (snd (local_range_data p) - fst (local_range_data p)));
    [| lia].
  unfold gdi_add.
  rewrite (to_global_dof_index_small cfg i) by lia.
  now rewrite to_global_dof_index_small by lia.
Qed.

Lemma local_to_global_ghost (cfg : Config) (p : Partitioner) (i : Z) :
  well_formed cfg p = true ->
  owned_count p <= i < owned_count p + n_ghost_indices_data p ->
  exists g,
    nth_error (ghost_indices_data p) (Z.to_nat (i - owned_count p)) = Some g /\
    local_to_global cfg p i = Ok g.
Proof.
  intros Hwf Hi.
  destruct (well_formed_inv _ _ Hwf) as (Hfits & Hspace & Hasc & Hdisj & Hn).
  destruct (nth_error (ghost_indices_data p) (Z.to_nat (i - owned_count p)))
    as [g |] eqn:Hnth.
  2:{ apply nth_error_None in Hnth. unfold IndexSet.n_elements in Hn. lia. }
  exists g. split; [reflexivity |].
  unfold local_to_global.
  rewrite (local_size_fits _ _ Hfits). simpl bind at 1.
  destruct Hfits as (Hle & Hmax & Hspan). unfold owned_count in *.
  unfold uint_add. rewrite to_unsigned_int_small by lia.
  rewrite AssertIndexRange_holds by lia. simpl.
  destruct (Z.ltb_spec i (snd (local_range_data p) - fst (local_range_data p)));
    [lia |].
  unfold uint_sub. rewrite to_unsigned_int_small by lia.
  apply IndexSetFacts.nth_index_in_set_spec; [lia | assumption].
Qed.

(** ** Properties of the local numbering *)

(** C1, as amended. For a well-formed partitioner and every global index g:
    if g lies in the owned range, [global_to_local] returns g - lower;
    otherwise, if g is in the ghost set, it returns [local_size()] plus the
    rank of g within the ghost set; otherwise a debug build fails with
    [ExcIndexNotPresent] carrying g and the process id, and an optimized
    build, whose [Assert] is compiled out, returns
    [numbers::invalid_unsigned_int]. *)
Theorem global_to_local_cases (cfg : Config) (p : Partitioner) (g : Z) :
  well_formed cfg p = true ->
  local_size cfg p = Ok (owned_count p) /\
  global_to_local cfg p g =
    if in_local_range p g then
      Ok (g - fst (local_range p))
    else if IndexSet.is_element (ghost_indices p) g then
      Ok (owned_count p + IndexSet.index_within_set (ghost_indices p) g)
    else if debug_mode cfg then
      Throw (ExcIndexNotPresent g (this_mpi_process p))
    else
      Ok invalid_unsigned_int.
Proof.
  intros Hwf.
  destruct (well_formed_inv _ _ Hwf) as (Hfits & _).
  split; [now apply local_size_fits |].
  unfold local_range, ghost_indices, this_mpi_process.
  destruct (in_local_range p g) eqn:Hin.
  - now apply global_to_local_owned.
  - destruct (IndexSet.is_element (ghost_indices_data p) g) eqn:Hel.
    + now apply global_to_local_ghost.
    + now apply global_to_local_absent.
Qed.

Lemma global_to_local_cases_witness :
  well_formed debug_build example_partitioner = true /\
  global_to_local debug_build example_partitioner 2 = Ok 2 /\
  global_to_local debug_build example_partitioner 7 = Ok 4 /\
  global_to_local debug_build example_partitioner 5 =
    Throw (ExcIndexNotPresent 5 0) /\
  global_to_local optimized_build example_partitioner 5 = Ok invalid_unsigned_int.
Proof.
  split; [reflexivity |].
  split; [exact (proj2 (global_to_local_cases debug_build example_partitioner 2
                          eq_refl)) |].
  split; [exact (proj2 (global_to_local_cases debug_build example_partitioner 7
                          eq_refl)) |].
  split; [exact (proj2 (global_to_local_cases debug_build example_partitioner 5
                          eq_refl)) |].
  exact (proj2 (global_to_local_cases optimized_build example_partitioner 5
                  eq_refl)).
Defined.

(** C1 as stated does not hold: in an optimized build the lookup of an index
    that is neither owned nor ghost does not fail, it returns a number. *)
Lemma global_to_local_absent_returns_counterexample :
  well_formed optimized_build example_partitioner = true /\
  in_local_range example_partitioner 5 = false /\
  IndexSet.is_element (ghost_indices example_partitioner) 5 = false /\
  global_to_local optimized_build example_partitioner 5 = Ok 4294967295 /\
  global_to_local optimized_build example_partitioner 5 <>
    Throw (ExcIndexNotPresent 5 (this_mpi_process example_partitioner)).
Proof.
  repeat split; try reflexivity. discriminate.
Qed.

(** C2, as amended. For a well-formed partitioner, that is one whose owned
    range is a representable interval, whose ghost set is ordered, disjoint
    from the owned range and counted by [n_ghost_indices()], and whose
    [local_size() + n_ghost_indices()] is at most 2^32 - 1, every local
    index i below [local_size() + n_ghost_indices()] satisfies
    [global_to_local(local_to_global(i)) = i], and every global index g that
    is owned or ghosted satisfies [local_to_global(global_to_local(g)) = g]. *)
Theorem local_global_round_trip (cfg : Config) (p : Partitioner) (i g : Z) :
  well_formed cfg p = true ->
  0 <= i < owned_count p + n_ghost_indices p ->
  in_local_range p g = true \/ is_ghost_entry p g = true ->
  (x <- local_to_global cfg p i ;; global_to_local cfg p x) = Ok i /\
  (l <- global_to_local cfg p g ;; local_to_global cfg p l) = Ok g.
Proof.
  intros Hwf Hi Hg.
  destruct (well_formed_inv _ _ Hwf) as (Hfits & Hspace & Hasc & Hdisj & Hn).
  unfold n_ghost_indices in *.
  split.
  - destruct (Z.lt_ge_cases i (owned_count p)) as [Hown | Hghost].
    + rewrite local_to_global_owned by (assumption || lia). simpl.
      rewrite global_to_local_owned; [f_equal; lia | assumption |].
      apply in_local_range_iff. unfold owned_count in Hown. lia.
    + destruct (local_to_global_ghost cfg p i Hwf) as (x & Hnth & ->); [lia |].
      simpl.
      pose proof (nth_error_In _ _ Hnth) as Hin.
      rewrite global_to_local_ghost;
        [| assumption | now apply Hdisj | now apply IndexSetFacts.is_element_In].
      rewrite (IndexSetFacts.index_within_set_nth 0 _ _ _ Hasc Hnth).
      f_equal. lia.
  - destruct Hg as [Hown | Hghost].
    + rewrite global_to_local_owned by assumption. simpl.
      apply in_local_range_iff in Hown.
      rewrite local_to_global_owned; [f_equal; lia | assumption |].
      unfold owned_count. lia.
    + unfold is_ghost_entry, ghost_indices in Hghost.
      destruct (in_local_range p g) eqn:Hout; [discriminate |].
      rewrite global_to_local_ghost by assumption. simpl.
      apply IndexSetFacts.is_element_In in Hghost.
      pose proof (IndexSetFacts.index_within_set_bound _ _ Hghost) as Hrank.
      destruct (local_to_global_ghost cfg p
                  (owned_count p + IndexSet.index_within_set (ghost_indices_data p) g)
                  Hwf) as (x & Hnth & ->); [lia |].
      f_equal.
      replace (owned_count p + IndexSet.index_within_set (ghost_indices_data p) g
               - owned_count p)
        with (IndexSet.index_within_set (ghost_indices_data p) g) in Hnth by lia.
      unfold IndexSet.index_within_set in Hnth. rewrite Nat2Z.id in Hnth.
      rewrite (IndexSetFacts.nth_index_within_set 0 _ _ Hasc Hghost) in Hnth.
      congruence.
Qed.

Lemma local_global_round_trip_witness :
  (x <- local_to_global debug_build example_partitioner 4 ;;
   global_to_local debug_build example_partitioner x) = Ok 4 /\
  (l <- global_to_local debug_build example_partitioner 4 ;;
   local_to_global debug_build example_partitioner l) = Ok 4.
Proof.
  apply (local_global_round_trip debug_build example_partitioner 4 4).
  - reflexivity.
  - unfold owned_count, n_ghost_indices; simpl; lia.
  - right; reflexivity.
Defined.

(** C2 as stated does not hold: when owned and ghost entries together
    exceed 2^32 - 1 the local index of a ghost wraps around. Here the ghost
    2^32 + 2 gets local index 0, with every assertion of a debug build
    passing, and local index 0 maps back to the owned global index 0. *)
Lemma local_global_round_trip_overflow_counterexample :
  local_range_fits debug_build overflowing_partitioner /\
  IndexSet.ascending (ghost_indices overflowing_partitioner) = true /\
  forallb (fun g => negb (in_local_range overflowing_partitioner g))
          (ghost_indices overflowing_partitioner) = true /\
  n_ghost_indices overflowing_partitioner =
    IndexSet.n_elements (ghost_indices overflowing_partitioner) /\
  is_ghost_entry overflowing_partitioner (2 ^ 32 + 2) = true /\
  global_to_local debug_build overflowing_partitioner (2 ^ 32 + 2) = Ok 0 /\
  local_to_global debug_build overflowing_partitioner 0 = Ok 0 /\
  (l <- global_to_local debug_build overflowing_partitioner (2 ^ 32 + 2) ;;
   local_to_global debug_build overflowing_partitioner l) <> Ok (2 ^ 32 + 2).
Proof.
  split.
  { unfold local_range_fits. vm_compute. repeat split; discriminate. }
  repeat split; try reflexivity.
  vm_compute. discriminate.
Qed.

(** C3, as amended. For every global index g that is neither in the owned
    range nor in the ghost set (inside or outside [0, global_size)), on any
    partitioner: a debug build fails with [ExcIndexNotPresent] carrying g
    and the process id and returns no index; an optimized build, whose
    [Assert] is compiled out, does not fail but returns
    [numbers::invalid_unsigned_int], that is 2^32 - 1. *)
Theorem global_to_local_not_present (cfg : Config) (p : Partitioner) (g : Z) :
  in_local_range p g = false ->
  IndexSet.is_element (ghost_indices p) g = false ->
  global_to_local cfg p g =
    (if debug_mode cfg then Throw (ExcIndexNotPresent g (this_mpi_process p))
     else Ok invalid_unsigned_int) /\
  (debug_mode cfg = true -> forall r, global_to_local cfg p g <> Ok r) /\
  invalid_unsigned_int = 2 ^ 32 - 1.
Proof.
  intros Hout Hel.
  pose proof (global_to_local_absent cfg p g Hout Hel) as Hres.
  split; [exact Hres |].
  split; [| reflexivity].
  intros Hdebug r. rewrite Hres, Hdebug. discriminate.
Qed.

Lemma global_to_local_not_present_witness :
  global_to_local debug_build example_partitioner 100 =
    Throw (ExcIndexNotPresent 100 0) /\
  global_to_local optimized_build overflowing_partitioner (2 ^ 40) =
    Ok invalid_unsigned_int.
Proof.
  split.
  - exact (proj1 (global_to_local_not_present debug_build example_partitioner
                    100 eq_refl eq_refl)).
  - exact (proj1 (global_to_local_not_present optimized_build
                    overflowing_partitioner (2 ^ 40) eq_refl eq_refl)).
Defined.

(** C3 as stated does not hold: with [Assert] compiled out, the lookup of
    index 100, outside [0, global_size) and neither owned nor ghost, returns
    4294967295, a number beyond the three local indices of the partitioner. *)
Lemma global_to_local_out_of_range_counterexample :
  in_local_range example_partitioner_1 100 = false /\
  IndexSet.is_element (ghost_indices example_partitioner_1) 100 = false /\
  size example_partitioner_1 <= 100 /\
  global_to_local optimized_build_32 example_partitioner_1 100 = Ok 4294967295 /\
  local_size optimized_build_32 example_partitioner_1 = Ok 3 /\
  n_ghost_indices example_partitioner_1 = 0 /\
  3 + 0 <= 4294967295.
Proof.
  repeat split; try reflexivity; simpl; discriminate.
Qed.

(** C4, as amended. In a well-formed partitioner, that is one whose owned
    range is a representable interval, whose ghost set is ordered, disjoint
    from the owned range and counted by [n_ghost_indices()], and whose
    [local_size() + n_ghost_indices()] is at most 2^32 - 1, the ghosts
    occupy the local indices [local_size(), local_size() + n_ghost_indices()),
    each ghost at [local_size()] plus its rank in the ghost set and hence in
    strictly ascending order of the global index, and an owned local index
    i maps to lower + i. *)
Theorem ghost_segment_ascending (cfg : Config) (p : Partitioner) :
  well_formed cfg p = true ->
  local_size cfg p = Ok (owned_count p) /\
  (forall i,
      owned_count p <= i < owned_count p + n_ghost_indices p ->
      exists g,
        local_to_global cfg p i = Ok g /\
        is_ghost_entry p g = true /\
        IndexSet.index_within_set (ghost_indices p) g = i - owned_count p) /\
  (forall i j,
      owned_count p <= i -> i < j -> j < owned_count p + n_ghost_indices p ->
      exists gi gj,
        local_to_global cfg p i = Ok gi /\
        local_to_global cfg p j = Ok gj /\
        is_ghost_entry p gi = true /\
        is_ghost_entry p gj = true /\
        gi < gj) /\
  (forall i,
      0 <= i < owned_count p ->
      local_to_global cfg p i = Ok (fst (local_range p) + i)).
Proof.
  intros Hwf.
  destruct (well_formed_inv _ _ Hwf) as (Hfits & Hspace & Hasc & Hdisj & Hn).
  assert (Hghost : forall x n, nth_error (ghost_indices_data p) n = Some x ->
                               is_ghost_entry p x = true).
  { intros x n Hnth. apply nth_error_In in Hnth.
    unfold is_ghost_entry, ghost_indices. rewrite (Hdisj _ Hnth).
    now apply IndexSetFacts.is_element_In. }
  split; [now apply local_size_fits |].
  split; [| split].
  - intros i Hi. unfold n_ghost_indices in Hi.
    destruct (local_to_global_ghost cfg p i Hwf) as (g & Hnth & Hg); [lia |].
    exists g. split; [exact Hg |]. split; [eauto |].
    unfold ghost_indices.
    rewrite (IndexSetFacts.index_within_set_nth 0 _ _ _ Hasc Hnth). lia.
  - intros i j Hi Hij Hj. unfold n_ghost_indices in Hj.
    destruct (local_to_global_ghost cfg p i Hwf) as (gi & Hnthi & Hgi); [lia |].
    destruct (local_to_global_ghost cfg p j Hwf) as (gj & Hnthj & Hgj); [lia |].
    exists gi, gj.
    repeat split; eauto.
    eapply (IndexSetFacts.nth_error_ascending 0); try eassumption. lia.
  - intros i Hi. now apply local_to_global_owned.
Qed.

Lemma ghost_segment_ascending_witness :
  well_formed debug_build example_partitioner = true /\
  (exists g,
      local_to_global debug_build example_partitioner 4 = Ok g /\
      is_ghost_entry example_partitioner g = true /\
      IndexSet.index_within_set (ghost_indices example_partitioner) g = 4 - 3) /\
  (exists gi gj,
      local_to_global debug_build example_partitioner 3 = Ok gi /\
      local_to_global debug_build example_partitioner 4 = Ok gj /\
      is_ghost_entry example_partitioner gi = true /\
      is_ghost_entry example_partitioner gj = true /\
      gi < gj) /\
  local_to_global debug_build example_partitioner 1 = Ok 1.
Proof.
  split; [reflexivity |].
  destruct (ghost_segment_ascending debug_build example_partitioner eq_refl)
    as (_ & Hslot & Hghost & Howned).
  split; [| split].
  - apply (Hslot 4). unfold owned_count, n_ghost_indices; simpl; lia.
  - apply (Hghost 3 4); unfold owned_count, n_ghost_indices; simpl; lia.
  - apply (Howned 1). unfold owned_count; simpl; lia.
Defined.

(** C4 as stated does not hold: when owned and ghost entries together
    exceed 2^32 - 1 the sum [local_size() + n_ghost_indices()] wraps around,
    here to 1, and a debug build rejects the owned local index 5 and the
    first ghost slot instead of returning lower + 5 and the first ghost. *)
Lemma ghost_segment_overflow_counterexample :
  local_range_fits debug_build overflowing_partitioner /\
  IndexSet.ascending (ghost_indices overflowing_partitioner) = true /\
  forallb (fun g => negb (in_local_range overflowing_partitioner g))
          (ghost_indices overflowing_partitioner) = true /\
  n_ghost_indices overflowing_partitioner =
    IndexSet.n_elements (ghost_indices overflowing_partitioner) /\
  local_size debug_build overflowing_partitioner = Ok 4294967294 /\
  0 <= 5 < 4294967294 /\
  local_to_global debug_build overflowing_partitioner 5 =
    Throw (ExcIndexRange 5 0 1) /\
  local_to_global debug_build overflowing_partitioner 5 <>
    Ok (fst (local_range overflowing_partitioner) + 5) /\
  local_to_global debug_build overflowing_partitioner 4294967294 =
    Throw (ExcIndexRange 4294967294 0 1).
Proof.
  split.
  { unfold local_range_fits. vm_compute. repeat split; discriminate. }
  repeat split; try reflexivity; vm_compute; discriminate.
Qed.

(** C8. [is_ghost_entry(g)] is true exactly when g is outside the owned
    range and an element of the ghost index set; [in_local_range(g)] and
    [is_ghost_entry(g)] are never both true, whatever the ghost set holds. *)
Theorem is_ghost_entry_exact (p : Partitioner) (g : Z) :
  (is_ghost_entry p g = true <->
   in_local_range p g = false /\ In g (ghost_indices p)) /\
  is_ghost_entry p g =
    negb (in_local_range p g) && IndexSet.is_element (ghost_indices p) g /\
  in_local_range p g && is_ghost_entry p g = false.
Proof.
  unfold is_ghost_entry.
  destruct (in_local_range p g); simpl; repeat split; try reflexivity;
    try discriminate; try tauto.
  - intros [H _]; discriminate.
  - now apply IndexSetFacts.is_element_In.
  - intros [_ H]. now apply IndexSetFacts.is_element_In.
Qed.

(** The owned index 1 put into the ghost set by hand is still not reported
    as a ghost entry. *)
Example is_ghost_entry_owned_index :
  let p := {| global_size := 12; locally_owned_range_data := [0; 1; 2];
              local_range_data := (0, 3); ghost_indices_data := [1; 4];
              n_ghost_indices_data := 2; ghost_targets_data := [];
              import_indices_data := []; n_import_indices_data := 0;
              import_targets_data := [];
              import_indices_chunks_by_rank_data := [];
              n_ghost_indices_in_larger_set := 0;
              ghost_indices_subset_chunks_by_rank_data := [];
              ghost_indices_subset_data := []; my_pid := 0; n_procs := 4;
              communicator := 0; have_ghost_indices := true |} in
  in_local_range p 1 = true /\ is_ghost_entry p 1 = false /\
  is_ghost_entry p 4 = true.
Proof. repeat split. Qed.

(** C9. [local_size()] takes the difference of the two ends of the owned
    range in [types::global_dof_index] and asserts that it fits
    [unsigned int] before narrowing; when the owned range holds at most
    2^32 - 1 indices the result is exactly that difference, in a debug build
    as in an optimized one, and the assertion does not fire. *)
Theorem local_size_exact (cfg : Config) (p : Partitioner) :
  local_range_fits cfg p ->
  gdi_sub cfg (snd (local_range p)) (fst (local_range p)) <= unsigned_int_max /\
  local_size cfg p = Ok (snd (local_range p) - fst (local_range p)) /\
  local_size cfg p <> Throw ExcNotImplemented.
Proof.
  intros Hfits.
  pose proof (local_size_fits _ _ Hfits) as Hls.
  destruct Hfits as (Hle & Hmax & Hspan).
  pose proof (unsigned_int_max_le_gdi_max cfg).
  unfold local_range, gdi_sub.
  rewrite to_global_dof_index_small by lia.
  repeat split; [assumption | exact Hls |].
  rewrite Hls; discriminate.
Qed.

Lemma local_size_exact_witness :
  local_range_fits debug_build example_partitioner /\
  local_size debug_build example_partitioner = Ok 3.
Proof.
  assert (Hfits : local_range_fits debug_build example_partitioner).
  { unfold local_range_fits; simpl. repeat split; discriminate. }
  split; [exact Hfits |].
  exact (proj1 (proj2 (local_size_exact debug_build example_partitioner Hfits))).
Defined.

(** Beyond that size the assertion fires in a debug build, and an optimized
    build narrows the difference modulo 2^32. *)
Example local_size_oversized :
  local_size debug_build oversized_partitioner = Throw ExcNotImplemented /\
  local_size optimized_build oversized_partitioner = Ok 0.
Proof. split; reflexivity. Qed.

(** C10. The deprecated [get_communicator()] and [get_mpi_communicator()]
    both return the cached [communicator] member, so they agree on every
    partitioner. *)
Theorem get_communicator_same (p : Partitioner) :
  get_communicator p = communicator p /\
  get_mpi_communicator p = communicator p /\
  get_communicator p = get_mpi_communicator p.
Proof. repeat split. Qed.

(** ** The schedule of the four-process scenario *)

Example set_ghost_indices_scenario_0 :
  let p := fst (set_ghost_indices example_exchange_0 [4; 7] []
                  (example_owned_only 0 0 3)) in
  ghost_targets p = [(1, 1); (2, 1)] /\ n_ghost_indices p = 2 /\
  import_targets p = [] /\
  global_to_local debug_build p 4 = Ok 3 /\
  global_to_local debug_build p 7 = Ok 4.
Proof. repeat split. Qed.

Example set_ghost_indices_scenario_1 :
  let p := fst (set_ghost_indices example_exchange_1 [] []
                  (example_owned_only 1 3 6)) in
  ghost_targets p = [] /\ import_targets p = [(0, 1)] /\
  import_indices p = [(1, 2)] /\ n_import_indices p = 1.
Proof. repeat split. Qed.

(** ** The ghost targets add up to the ghost set *)

Section GhostTargets.

Variable ranges : list (Z * Z).

Lemma find_owner_bounds (base g q : Z) (rs : list (Z * Z)) :
  find_owner rs base g = Some q ->
  base <= q < base + Z.of_nat (length rs).
Proof.
  revert base; induction rs as [| [lower upper] rs IH]; intros base H;
    simpl in H; [discriminate |].
  simpl length. rewrite Nat2Z.inj_succ.
  destruct ((lower <=? g) && (g <? upper)).
  - injection H as <-. lia.
  - apply IH in H. lia.
Qed.

Lemma sum_counts_map (f : Z -> Z) (pids : list Z) :
  sum_counts (map (fun pid => (pid, f pid)) pids) = sum_over f pids.
Proof. induction pids as [| a pids IH]; simpl; [reflexivity | now rewrite IH]. Qed.

Lemma sum_counts_filter_positive (l : list (Z * Z)) :
  Forall (fun t => 0 <= snd t) l ->
  sum_counts (filter (fun t => 0 <? snd t) l) = sum_counts l.
Proof.
  induction 1 as [| t l Ht _ IH]; simpl; [reflexivity |].
  destruct (Z.ltb_spec 0 (snd t)); simpl; lia.
Qed.

Lemma sum_over_ext (f h : Z -> Z) (pids : list Z) :
  (forall pid, f pid = h pid) -> sum_over f pids = sum_over h pids.
Proof.
  intros Hext; induction pids as [| a pids IH]; simpl; [reflexivity |].
  now rewrite Hext, IH.
Qed.

Lemma sum_over_plus (f h : Z -> Z) (pids : list Z) :
  sum_over (fun pid => f pid + h pid) pids = sum_over f pids + sum_over h pids.
Proof. induction pids as [| a pids IH]; simpl; lia. Qed.

Lemma sum_over_zero (pids : list Z) : sum_over (fun _ => 0) pids = 0.
Proof. induction pids as [| a pids IH]; simpl; lia. Qed.

(** Exactly one process id of a consecutive block matches a given id. *)
Lemma sum_over_indicator (q : Z) (start n : nat) :
  sum_over (fun pid => if q =? pid then 1 else 0) (map Z.of_nat (seq start n)) =
  if (Z.of_nat start <=? q) && (q <? Z.of_nat start + Z.of_nat n) then 1 else 0.
Proof.
  revert start; induction n as [| n IH]; intros start; simpl.
  - destruct (Z.leb_spec (Z.of_nat start) q), (Z.ltb_spec q (Z.of_nat start + 0));
      simpl; lia.
  - rewrite IH.
    destruct (Z.eqb_spec q (Z.of_nat start)),
             (Z.leb_spec (Z.of_nat (S start)) q),
             (Z.ltb_spec q (Z.of_nat (S start) + Z.of_nat n)),
             (Z.leb_spec (Z.of_nat start) q),
             (Z.ltb_spec q (Z.of_nat start + Z.pos (Pos.of_succ_nat n)));
      simpl; lia.
Qed.

Lemma sum_over_owned_by (g : Z) :
  owner_of ranges g <> None ->
  sum_over (fun pid => if owned_by ranges pid g then 1 else 0)
           (process_ids (length ranges)) = 1.
Proof.
  intros Howner. unfold owned_by, process_ids.
  destruct (owner_of ranges g) as [q |] eqn:Hq; [| congruence].
  rewrite sum_over_indicator.
  apply find_owner_bounds in Hq.
  destruct (Z.leb_spec (Z.of_nat 0) q),
           (Z.ltb_spec q (Z.of_nat 0 + Z.of_nat (length ranges))); simpl; lia.
Qed.

Lemma sum_counts_group_by_owner (ghosts : IndexSet.t) :
  (forall g, In g ghosts -> owner_of ranges g <> None) ->
  sum_counts (group_by_owner ranges ghosts) = IndexSet.n_elements ghosts.
Proof.
  intros Howned. unfold group_by_owner.
  rewrite sum_counts_filter_positive
    by (apply Forall_forall; intros t Ht; apply in_map_iff in Ht;
        destruct Ht as (pid & <- & _); simpl; lia).
  rewrite sum_counts_map.
  unfold IndexSet.n_elements.
  induction ghosts as [| g ghosts IH].
  - simpl. apply sum_over_zero.
  - rewrite (sum_over_ext _
               (fun pid => (if owned_by ranges pid g then 1 else 0) +
                           Z.of_nat (length (filter (owned_by ranges pid) ghosts)))).
    2:{ intros pid. simpl. destruct (owned_by ranges pid g); simpl length; lia. }
    rewrite sum_over_plus, IH by (intros; apply Howned; now right).
    rewrite sum_over_owned_by by (apply Howned; now left).
    simpl length. lia.
Qed.

End GhostTargets.

Lemma reject_first_ok (bad : Z -> bool) (exc : Z -> Exception) (l : list Z) :
  reject_first bad exc l = Ok tt -> forall x, In x l -> bad x = false.
Proof.
  unfold reject_first. intros H x Hin.
  destruct (find bad l) eqn:Hfind; [discriminate |].
  exact (find_none _ _ Hfind x Hin).
Qed.

Lemma check_ghost_indices_owned (ex : Exchange) (ghosts larger : IndexSet.t)
      (p : Partitioner) (u : unit) :
  check_ghost_indices ex ghosts larger p = Ok u ->
  forall g, In g ghosts -> owner_of (owned_ranges ex) g <> None.
Proof.
  unfold check_ghost_indices. intros H g Hin.
  destruct (reject_first (in_local_range p) _ ghosts); [| discriminate].
  simpl in H.
  match type of H with
  | bind ?m _ = _ => destruct m; [| discriminate]
  end.
  simpl in H.
  match type of H with
  | bind ?m _ = _ => destruct m as [[] |] eqn:Hown; [| discriminate]
  end.
  pose proof (reject_first_ok _ _ _ Hown g Hin) as Hg. simpl in Hg.
  destruct (owner_of (owned_ranges ex) g); [discriminate | discriminate].
Qed.

(** C5. Whenever attaching ghosts to a partitioner succeeds, the counts of
    [ghost_targets()] of the finalized partitioner add up to
    [n_ghost_indices()], the number of elements of its ghost set. *)
Theorem ghost_targets_sum (ex : Exchange) (ghosts larger : IndexSet.t)
        (p p' : Partitioner) :
  set_ghost_indices ex ghosts larger p = (p', Ok tt) ->
  ghost_indices_initialized p' = true /\
  n_ghost_indices p' = IndexSet.n_elements (ghost_indices p') /\
  sum_counts (ghost_targets p') = n_ghost_indices p'.
Proof.
  unfold set_ghost_indices. intros H.
  destruct (have_ghost_indices p); [discriminate |].
  destruct (check_ghost_indices ex ghosts larger p) as [u |] eqn:Hcheck;
    [| discriminate].
  injection H as <-. simpl.
  repeat split.
  apply sum_counts_group_by_owner.
  eapply check_ghost_indices_owned; eassumption.
Qed.

Lemma ghost_targets_sum_witness :
  let p' := fst (set_ghost_indices example_exchange_0 [4; 7] []
                   (example_owned_only 0 0 3)) in
  set_ghost_indices example_exchange_0 [4; 7] [] (example_owned_only 0 0 3) =
    (p', Ok tt) /\
  ghost_targets p' = [(1, 1); (2, 1)] /\
  sum_counts (ghost_targets p') = n_ghost_indices p'.
Proof.
  intros p'. split; [reflexivity |]. split; [reflexivity |].
  exact (proj2 (proj2 (ghost_targets_sum example_exchange_0 [4; 7] []
                         (example_owned_only 0 0 3) p' eq_refl))).
Defined.

(** ** Attaching ghosts succeeds on valid input *)

Lemma reject_first_none (bad : Z -> bool) (exc : Z -> Exception) (l : list Z) :
  (forall x, In x l -> bad x = false) -> reject_first bad exc l = Ok tt.
Proof.
  intros Hall. unfold reject_first.
  destruct (find bad l) as [x |] eqn:Hfind; [| reflexivity].
  apply find_some in Hfind as [Hin Hbad].
  rewrite (Hall x Hin) in Hbad. discriminate.
Qed.

(** In a partition of [lower, size) every index of that interval has an
    owner. *)
Lemma find_owner_total (ranges : list (Z * Z)) (lower size base g : Z) :
  partitions_from lower ranges size = true ->
  lower <= g < size ->
  exists q, find_owner ranges base g = Some q.
Proof.
  revert lower base; induction ranges as [| [l u] ranges IH];
    intros lower base Hpart Hg; simpl in Hpart.
  - apply Z.eqb_eq in Hpart. lia.
  - apply andb_prop in Hpart as [Hpart Hrest].
    apply andb_prop in Hpart as [Hl Hlu].
    apply Z.eqb_eq in Hl. apply Z.leb_le in Hlu. subst l.
    simpl. destruct (Z.leb_spec lower g); [| lia].
    destruct (Z.ltb_spec g u); simpl.
    + eexists; reflexivity.
    + apply (IH u); [assumption | lia].
Qed.

Lemma check_requests_valid (p : Partitioner) (reqs : list (Z * list Z)) :
  (forall sender indices,
      In (sender, indices) reqs ->
      0 <= sender < n_procs p /\
      forall g, In g indices -> in_local_range p g = true) ->
  check_requests p reqs = Ok tt.
Proof.
  induction reqs as [| [sender indices] reqs IH]; intros Hvalid; simpl;
    [reflexivity |].
  destruct (Hvalid sender indices (or_introl eq_refl)) as [Hsender Hown].
  destruct (Z.leb_spec 0 sender); [| lia].
  destruct (Z.ltb_spec sender (n_procs p)); [| lia].
  simpl. rewrite reject_first_none.
  - simpl. apply IH. intros s i Hin. apply Hvalid. now right.
  - intros g Hg. now rewrite (Hown g Hg).
Qed.

(** With owned ranges that partition [0, global_size), ghosts inside that
    range and outside the owned range, no superset, and well-formed
    requests, attaching ghosts to a partitioner without ghosts succeeds. *)
Lemma set_ghost_indices_succeeds (ex : Exchange) (ghosts : IndexSet.t)
      (p : Partitioner) :
  have_ghost_indices p = false ->
  partitions_from 0 (owned_ranges ex) (global_size p) = true ->
  (forall g, In g ghosts -> 0 <= g < global_size p /\ in_local_range p g = false) ->
  (forall sender indices,
      In (sender, indices) (requests ex) ->
      0 <= sender < n_procs p /\
      forall g, In g indices -> in_local_range p g = true) ->
  exists p',
    set_ghost_indices ex ghosts [] p = (p', Ok tt) /\
    ghost_indices p' = ghosts /\
    local_range p' = local_range p.
Proof.
  intros Hflag Hpart Hghosts Hreqs.
  unfold set_ghost_indices. rewrite Hflag.
  assert (Hcheck : check_ghost_indices ex ghosts [] p = Ok tt).
  { unfold check_ghost_indices.
    rewrite reject_first_none by (intros g Hg; now apply Hghosts).
    simpl. rewrite reject_first_none.
    - simpl. now apply check_requests_valid.
    - intros g Hg. unfold owner_of.
      destruct (find_owner_total _ 0 (global_size p) 0 g Hpart) as [q ->];
        [now apply Hghosts | reflexivity]. }
  rewrite Hcheck. eexists. split; [reflexivity |]. split; reflexivity.
Qed.

(** ** Attaching ghosts once *)

Lemma set_ghost_indices_finalizes (ex : Exchange) (ghosts larger : IndexSet.t)
      (p p' : Partitioner) :
  set_ghost_indices ex ghosts larger p = (p', Ok tt) ->
  have_ghost_indices p = false /\ have_ghost_indices p' = true.
Proof.
  unfold set_ghost_indices. intros H.
  destruct (have_ghost_indices p); [discriminate |].
  destruct (check_ghost_indices ex ghosts larger p); [| discriminate].
  injection H as <-. split; reflexivity.
Qed.

(** A failed attachment stores nothing, whatever the failure. *)
Lemma set_ghost_indices_failure_unchanged (ex : Exchange)
      (ghosts larger : IndexSet.t) (p p' : Partitioner) (e : Exception) :
  set_ghost_indices ex ghosts larger p = (p', Throw e) -> p' = p.
Proof.
  unfold set_ghost_indices. intros H.
  destruct (have_ghost_indices p); [now injection H |].
  destruct (check_ghost_indices ex ghosts larger p);
    [discriminate | now injection H].
Qed.

(** C6. Attaching ghosts succeeds at most once: on a partitioner whose
    ghosts were already set, be it flagged so or the outcome of a successful
    attachment, [set_ghost_indices] fails with AlreadyFinalized and leaves
    the partitioner as it was. *)
Theorem set_ghost_indices_at_most_once
        (ex ex' : Exchange) (ghosts larger ghosts' larger' : IndexSet.t)
        (p : Partitioner) :
  ghost_indices_initialized p = true \/
  (exists p0, set_ghost_indices ex ghosts larger p0 = (p, Ok tt)) ->
  set_ghost_indices ex' ghosts' larger' p = (p, Throw ExcAlreadyFinalized).
Proof.
  intros H.
  assert (Hflag : have_ghost_indices p = true).
  { destruct H as [H | [p0 H]]; [exact H |].
    now apply set_ghost_indices_finalizes in H. }
  unfold set_ghost_indices. now rewrite Hflag.
Qed.

Lemma set_ghost_indices_at_most_once_witness :
  let p := fst (set_ghost_indices example_exchange_0 [4; 7] []
                  (example_owned_only 0 0 3)) in
  (exists p0, set_ghost_indices example_exchange_0 [4; 7] [] p0 = (p, Ok tt)) /\
  set_ghost_indices example_exchange_0 [5] [] p = (p, Throw ExcAlreadyFinalized).
Proof.
  intros p.
  assert (Hfirst : exists p0,
             set_ghost_indices example_exchange_0 [4; 7] [] p0 = (p, Ok tt)).
  { exists (example_owned_only 0 0 3). reflexivity. }
  split; [exact Hfirst |].
  exact (set_ghost_indices_at_most_once example_exchange_0 example_exchange_0
           [4; 7] [] [5] [] p (or_intror Hfirst)).
Defined.

(** ** Compatibility of partitioners *)



(** Same local size, different ghost sets: not compatible, whichever of the
    two is asked. *)
Example is_compatible_different_ghosts :
  is_compatible debug_build example_partitioner
                (example_owned_only 0 0 3) = Ok false /\
  is_compatible debug_build (example_owned_only 0 0 3)
                example_partitioner = Ok false.
Proof. split; reflexivity. Qed.

(** ** Narrowing to [unsigned int] *)

Lemma to_unsigned_int_of_global_dof_index (cfg : Config) (x : Z) :
  to_unsigned_int (to_global_dof_index cfg x) = to_unsigned_int x.
Proof.
  unfold to_unsigned_int, to_global_dof_index, global_dof_index_bits.
  apply Z.mod_mod_divide.
  destruct (with_64bit_indices cfg).
  - exists (2 ^ 32). reflexivity.
  - exists 1. reflexivity.
Qed.

Lemma to_unsigned_int_range (x : Z) : 0 <= to_unsigned_int x <= unsigned_int_max.
Proof.
  unfold to_unsigned_int, unsigned_int_max.
  pose proof (Z.mod_pos_bound x (2 ^ 32)). lia.
Qed.

Lemma to_unsigned_int_idem (x : Z) :
  to_unsigned_int (to_unsigned_int x) = to_unsigned_int x.
Proof. apply to_unsigned_int_small, to_unsigned_int_range. Qed.

(** X1. When [types::global_dof_index] is 32 bits wide the assertion of
    [local_size()] cannot fire: whatever the two ends of the range hold, the
    call returns their difference modulo 2^32, in a debug build too. *)
Theorem local_size_32bit_never_fails (cfg : Config) (p : Partitioner) :
  with_64bit_indices cfg = false ->
  local_size cfg p =
    Ok ((snd (local_range p) - fst (local_range p)) mod 2 ^ 32).
Proof.
  intros H32. unfold local_size, local_range, gdi_sub, to_global_dof_index,
    global_dof_index_bits. rewrite H32.
  set (d := (snd (local_range_data p) - fst (local_range_data p)) mod 2 ^ 32).
  pose proof (to_unsigned_int_range
                (snd (local_range_data p) - fst (local_range_data p))) as Hd.
  unfold to_unsigned_int in Hd. fold d in Hd.
  destruct (Z.leb_spec d unsigned_int_max); [| lia].
  rewrite Assert_holds. simpl.
  now rewrite to_unsigned_int_small.
Qed.

Lemma local_size_32bit_never_fails_witness :
  local_size debug_build_32 example_partitioner_1 = Ok 3.
Proof.
  exact (local_size_32bit_never_fails debug_build_32 example_partitioner_1
           eq_refl).
Defined.

(** X2. When the owned range is representable but holds more than 2^32 - 1
    indices, [local_size()] fails with [ExcNotImplemented] in a debug build
    and returns the span reduced modulo 2^32 in an optimized build. *)
Theorem local_size_oversized_range (cfg : Config) (p : Partitioner) :
  0 <= fst (local_range p) <= snd (local_range p) ->
  snd (local_range p) <= global_dof_index_max cfg ->
  unsigned_int_max < snd (local_range p) - fst (local_range p) ->
  local_size cfg p =
    if debug_mode cfg then Throw ExcNotImplemented
    else Ok ((snd (local_range p) - fst (local_range p)) mod 2 ^ 32).
Proof.
  unfold local_range, local_size, gdi_sub. intros Hle Hmax Hspan.
  rewrite to_global_dof_index_small by lia.
  destruct (Z.leb_spec (snd (local_range_data p) - fst (local_range_data p))
                       unsigned_int_max); [lia |].
  rewrite Assert_fails. destruct (debug_mode cfg); reflexivity.
Qed.

Lemma local_size_oversized_range_witness :
  local_size debug_build wide_partitioner = Throw ExcNotImplemented /\
  local_size optimized_build wide_partitioner = Ok 0.
Proof.
  split.
  - apply (local_size_oversized_range debug_build wide_partitioner);
      vm_compute; first [reflexivity | split; discriminate | discriminate].
  - apply (local_size_oversized_range optimized_build wide_partitioner);
      vm_compute; first [reflexivity | split; discriminate | discriminate].
Defined.

(** X3. For an index of the owned range [global_to_local] returns
    (g - lower) modulo 2^32 in every build: the owned branch never calls
    [local_size()], so no assertion guards the narrowing, and in a range
    longer than 2^32 two owned indices 2^32 apart get the same local
    index. *)
Theorem global_to_local_owned_modulo (cfg : Config) (p : Partitioner) (g : Z) :
  in_local_range p g = true ->
  global_to_local cfg p g = Ok ((g - fst (local_range p)) mod 2 ^ 32).
Proof.
  intros Hin. unfold global_to_local, local_range. rewrite Hin. simpl orb.
  rewrite Assert_holds. simpl.
  unfold gdi_sub. now rewrite to_unsigned_int_of_global_dof_index.
Qed.

Lemma global_to_local_owned_modulo_witness :
  global_to_local debug_build wide_partitioner (2 ^ 32 + 5) = Ok 5 /\
  global_to_local debug_build wide_partitioner 5 = Ok 5.
Proof.
  split.
  - exact (global_to_local_owned_modulo debug_build wide_partitioner
             (2 ^ 32 + 5) eq_refl).
  - exact (global_to_local_owned_modulo debug_build wide_partitioner 5 eq_refl).
Defined.

(** ** Debug and optimized builds *)

Lemma local_size_builds_agree (w : bool) (p : Partitioner) (ls : Z) :
  local_size (mkConfig w true) p = Ok ls ->
  local_size (mkConfig w false) p = Ok ls.
Proof.
  unfold local_size, Assert, gdi_sub, to_global_dof_index, global_dof_index_bits.
  simpl.
  destruct (_ <=? unsigned_int_max); simpl; [tauto | discriminate].
Qed.

(** X4. Whatever [global_to_local] returns in a debug build, an optimized
    build of the same index width returns as well: the assertions only turn
    results into failures, they never change a result. *)
Theorem global_to_local_builds_agree (w : bool) (p : Partitioner) (g r : Z) :
  global_to_local (mkConfig w true) p g = Ok r ->
  global_to_local (mkConfig w false) p g = Ok r.
Proof.
  unfold global_to_local, Assert. cbn [debug_mode bind].
  destruct (in_local_range p g) eqn:Hin; cbn [orb bind].
  - tauto.
  - destruct (is_ghost_entry p g) eqn:Hgh; cbn [bind]; [| discriminate].
    destruct (local_size (mkConfig w true) p) as [ls |] eqn:Hls; cbn [bind];
      [| discriminate].
    rewrite (local_size_builds_agree _ _ _ Hls). cbn [bind]. tauto.
Qed.

Lemma global_to_local_builds_agree_witness :
  global_to_local debug_build example_partitioner 7 = Ok 4 /\
  global_to_local optimized_build example_partitioner 7 = Ok 4.
Proof.
  split; [reflexivity |].
  exact (global_to_local_builds_agree true example_partitioner 7 4 eq_refl).
Defined.

(** X5. Whatever [local_to_global] returns in a debug build, an optimized
    build of the same index width returns as well. *)
Theorem local_to_global_builds_agree (w : bool) (p : Partitioner) (i g : Z) :
  local_to_global (mkConfig w true) p i = Ok g ->
  local_to_global (mkConfig w false) p i = Ok g.
Proof.
  unfold local_to_global, AssertIndexRange. cbn [debug_mode bind].
  destruct (local_size (mkConfig w true) p) as [ls |] eqn:Hls; cbn [bind];
    [| discriminate].
  rewrite (local_size_builds_agree _ _ _ Hls). cbn [bind].
  destruct (i <? uint_add ls (n_ghost_indices_data p)); cbn [bind];
    [| discriminate].
  destruct (i <? ls); tauto.
Qed.

Lemma local_to_global_builds_agree_witness :
  local_to_global debug_build example_partitioner 4 = Ok 7 /\
  local_to_global optimized_build example_partitioner 4 = Ok 7.
Proof.
  split; [reflexivity |].
  exact (local_to_global_builds_agree true example_partitioner 4 7 eq_refl).
Defined.

(** X6. In a debug build [local_to_global] rejects every local index at or
    beyond [local_size() + n_ghost_indices()] of a well-formed partitioner
    with [ExcIndexRange], carrying the index and the number of local
    indices. *)
Theorem local_to_global_out_of_range (cfg : Config) (p : Partitioner) (i : Z) :
  well_formed cfg p = true ->
  debug_mode cfg = true ->
  owned_count p + n_ghost_indices p <= i ->
  local_to_global cfg p i =
    Throw (ExcIndexRange i 0 (owned_count p + n_ghost_indices p)).
Proof.
  intros Hwf Hdebug Hi.
  destruct (well_formed_inv _ _ Hwf) as (Hfits & Hspace & Hasc & Hdisj & Hn).
  unfold local_to_global, AssertIndexRange, n_ghost_indices in *.
  rewrite Hdebug, (local_size_fits _ _ Hfits). simpl.
  assert (0 <= n_ghost_indices_data p)
    by (rewrite Hn; unfold IndexSet.n_elements; lia).
  destruct Hfits as (Hle & Hmax & Hspan). unfold owned_count in *.
  unfold uint_add. rewrite to_unsigned_int_small by lia.
  destruct (Z.ltb_spec i
              (snd (local_range_data p) - fst (local_range_data p) +
               n_ghost_indices_data p)); [lia | reflexivity].
Qed.

Lemma local_to_global_out_of_range_witness :
  local_to_global debug_build example_partitioner 5 = Throw (ExcIndexRange 5 0 5).
Proof.
  apply (local_to_global_out_of_range debug_build example_partitioner 5).
  - reflexivity.
  - reflexivity.
  - vm_compute. discriminate.
Defined.

(** ** The local numbering as a bijection *)

(** The rank within a set grows with the index. *)
Lemma index_within_set_le (s : IndexSet.t) (g1 g2 : Z) :
  g1 <= g2 -> IndexSet.index_within_set s g1 <= IndexSet.index_within_set s g2.
Proof.
  unfold IndexSet.index_within_set. intros Hle.
  induction s as [| a s IH]; simpl; [lia |].
  destruct (Z.ltb_spec a g1), (Z.ltb_spec a g2); simpl length; lia.
Qed.

Lemma index_within_set_lt (s : IndexSet.t) (g1 g2 : Z) :
  In g1 s -> g1 < g2 ->
  IndexSet.index_within_set s g1 < IndexSet.index_within_set s g2.
Proof.
  intros Hin Hlt.
  induction s as [| a s IH]; [contradiction |].
  assert (Hweak := index_within_set_le s g1 g2 ltac:(lia)).
  unfold IndexSet.index_within_set in *. simpl.
  destruct Hin as [-> | Hin].
  - rewrite Z.ltb_irrefl. destruct (Z.ltb_spec g1 g2); [| lia].
    simpl length. lia.
  - specialize (IH Hin).
    destruct (Z.ltb_spec a g1), (Z.ltb_spec a g2); simpl length; lia.
Qed.

Lemma present_cases (p : Partitioner) (g : Z) :
  present p g = true ->
  in_local_range p g = true \/
  (in_local_range p g = false /\
   IndexSet.is_element (ghost_indices_data p) g = true).
Proof.
  unfold present, is_ghost_entry, ghost_indices.
  destruct (in_local_range p g); simpl; [now left | now right].
Qed.

(** The local index of a present global index, in closed form. *)
Lemma global_to_local_present (cfg : Config) (p : Partitioner) (g : Z) :
  well_formed cfg p = true ->
  present p g = true ->
  global_to_local cfg p g =
    Ok (if in_local_range p g then g - fst (local_range_data p)
        else owned_count p + IndexSet.index_within_set (ghost_indices_data p) g).
Proof.
  intros Hwf Hpres.
  destruct (well_formed_inv _ _ Hwf) as (Hfits & _).
  destruct (present_cases _ _ Hpres) as [Hin | [Hout Hel]].
  - rewrite Hin. now apply global_to_local_owned.
  - rewrite Hout. now apply global_to_local_ghost.
Qed.

(** X7. For a well-formed partitioner and a global index that is owned or
    ghost, [global_to_local] returns a local index below
    [local_size() + n_ghost_indices()], and that index is below
    [local_size()] exactly when the global index is owned. *)
Theorem global_to_local_valid_index (cfg : Config) (p : Partitioner) (g : Z) :
  well_formed cfg p = true ->
  present p g = true ->
  exists r,
    global_to_local cfg p g = Ok r /\
    0 <= r < owned_count p + n_ghost_indices p /\
    (r <? owned_count p) = in_local_range p g.
Proof.
  intros Hwf Hpres.
  rewrite (global_to_local_present _ _ _ Hwf Hpres).
  destruct (well_formed_inv _ _ Hwf) as (Hfits & Hspace & Hasc & Hdisj & Hn).
  unfold n_ghost_indices.
  assert (0 <= n_ghost_indices_data p)
    by (rewrite Hn; unfold IndexSet.n_elements; lia).
  eexists. split; [reflexivity |].
  destruct (present_cases _ _ Hpres) as [Hin | [Hout Hel]].
  - rewrite Hin. apply in_local_range_iff in Hin. unfold owned_count.
    split; [lia |]. apply Z.ltb_lt. lia.
  - rewrite Hout. apply IndexSetFacts.is_element_In in Hel.
    pose proof (IndexSetFacts.index_within_set_bound _ _ Hel).
    split; [unfold owned_count in *; destruct Hfits; lia |].
    apply Z.ltb_ge. lia.
Qed.

Lemma global_to_local_valid_index_witness :
  exists r,
    global_to_local debug_build example_partitioner 7 = Ok r /\
    0 <= r < 3 + 2 /\
    (r <? 3) = false.
Proof.
  exact (global_to_local_valid_index debug_build example_partitioner 7
           eq_refl eq_refl).
Defined.

(** X8. On a well-formed partitioner [global_to_local] is injective on the
    owned and ghost indices: two present global indices with the same local
    index are the same. *)
Theorem global_to_local_injective (cfg : Config) (p : Partitioner) (g1 g2 : Z) :
  well_formed cfg p = true ->
  present p g1 = true ->
  present p g2 = true ->
  global_to_local cfg p g1 = global_to_local cfg p g2 ->
  g1 = g2.
Proof.
  intros Hwf H1 H2.
  rewrite (global_to_local_present _ _ _ Hwf H1),
          (global_to_local_present _ _ _ Hwf H2).
  intros Heq. injection Heq as Heq.
  destruct (well_formed_inv _ _ Hwf) as (Hfits & Hspace & Hasc & Hdisj & Hn).
  destruct (present_cases _ _ H1) as [Hin1 | [Hout1 Hel1]];
    destruct (present_cases _ _ H2) as [Hin2 | [Hout2 Hel2]].
  - rewrite Hin1, Hin2 in Heq. lia.
  - rewrite Hin1, Hout2 in Heq. apply in_local_range_iff in Hin1.
    apply IndexSetFacts.is_element_In in Hel2.
    pose proof (IndexSetFacts.index_within_set_bound _ _ Hel2).
    unfold owned_count in *. lia.
  - rewrite Hout1, Hin2 in Heq. apply in_local_range_iff in Hin2.
    apply IndexSetFacts.is_element_In in Hel1.
    pose proof (IndexSetFacts.index_within_set_bound _ _ Hel1).
    unfold owned_count in *. lia.
  - rewrite Hout1, Hout2 in Heq.
    apply IndexSetFacts.is_element_In in Hel1, Hel2.
    destruct (Z.lt_trichotomy g1 g2) as [Hlt | [Heq' | Hgt]]; [| assumption |].
    + pose proof (index_within_set_lt _ _ _ Hel1 Hlt). lia.
    + pose proof (index_within_set_lt _ _ _ Hel2 Hgt). lia.
Qed.

Lemma global_to_local_injective_witness :
  global_to_local debug_build example_partitioner 7 =
  global_to_local debug_build example_partitioner (3 + 4) /\ 7 = 3 + 4.
Proof.
  split; [reflexivity |].
  exact (global_to_local_injective debug_build example_partitioner 7 (3 + 4)
           eq_refl eq_refl eq_refl eq_refl).
Defined.

(** The global index of a valid local index, in closed form. *)
Lemma local_to_global_valid (cfg : Config) (p : Partitioner) (i : Z) :
  well_formed cfg p = true ->
  0 <= i < owned_count p + n_ghost_indices p ->
  (i < owned_count p /\
   local_to_global cfg p i = Ok (fst (local_range_data p) + i)) \/
  (owned_count p <= i /\
   exists g,
     nth_error (ghost_indices_data p) (Z.to_nat (i - owned_count p)) = Some g /\
     local_to_global cfg p i = Ok g).
Proof.
  intros Hwf Hi. unfold n_ghost_indices in Hi.
  destruct (Z.lt_ge_cases i (owned_count p)) as [Hown | Hghost].
  - left. split; [assumption |]. apply local_to_global_owned; [assumption | lia].
  - right. split; [assumption |].
    apply local_to_global_ghost; [assumption | lia].
Qed.

(** X9. On a well-formed partitioner [local_to_global] is injective on the
    local indices below [local_size() + n_ghost_indices()]: two valid local
    indices with the same global index are the same. *)
Theorem local_to_global_injective (cfg : Config) (p : Partitioner) (i j : Z) :
  well_formed cfg p = true ->
  0 <= i < owned_count p + n_ghost_indices p ->
  0 <= j < owned_count p + n_ghost_indices p ->
  local_to_global cfg p i = local_to_global cfg p j ->
  i = j.
Proof.
  intros Hwf Hi Hj Heq.
  destruct (well_formed_inv _ _ Hwf) as (Hfits & Hspace & Hasc & Hdisj & Hn).
  assert (Hout : forall k g,
             nth_error (ghost_indices_data p) k = Some g ->
             ~ fst (local_range_data p) <= g < snd (local_range_data p)).
  { intros k g Hnth Hrange. apply nth_error_In in Hnth.
    apply Hdisj in Hnth. apply in_local_range_iff in Hrange. congruence. }
  destruct (local_to_global_valid _ _ _ Hwf Hi) as [[Hi' Hgi] | [Hi' (gi & Hni & Hgi)]];
    destruct (local_to_global_valid _ _ _ Hwf Hj) as [[Hj' Hgj] | [Hj' (gj & Hnj & Hgj)]];
    rewrite Hgi, Hgj in Heq; injection Heq as Heq; unfold owned_count in *.
  - lia.
  - exfalso. apply (Hout _ _ Hnj). lia.
  - exfalso. apply (Hout _ _ Hni). lia.
  - subst gj.
    destruct (Nat.lt_trichotomy
                (Z.to_nat (i - (snd (local_range_data p) - fst (local_range_data p))))
                (Z.to_nat (j - (snd (local_range_data p) - fst (local_range_data p)))))
      as [Hlt | [Hsame | Hgt]].
    + pose proof (IndexSetFacts.nth_error_ascending 0 _ _ _ _ _ Hasc Hlt Hni Hnj).
      lia.
    + lia.
    + pose proof (IndexSetFacts.nth_error_ascending 0 _ _ _ _ _ Hasc Hgt Hnj Hni).
      lia.
Qed.

Lemma local_to_global_injective_witness :
  local_to_global debug_build example_partitioner 4 =
  local_to_global debug_build example_partitioner (3 + 1) /\ 4 = 3 + 1.
Proof.
  split; [reflexivity |].
  apply (local_to_global_injective debug_build example_partitioner 4 (3 + 1));
    first [reflexivity | vm_compute; split; [discriminate | reflexivity]].
Defined.

(** X10. On a well-formed partitioner [global_to_local] keeps the order of
    the global indices within the owned segment and within the ghost
    segment: of two owned, or of two ghost, indices the smaller one gets
    the smaller local index. *)
Theorem global_to_local_monotone (cfg : Config) (p : Partitioner) (g1 g2 : Z) :
  well_formed cfg p = true ->
  present p g1 = true ->
  present p g2 = true ->
  in_local_range p g1 = in_local_range p g2 ->
  g1 < g2 ->
  exists r1 r2,
    global_to_local cfg p g1 = Ok r1 /\
    global_to_local cfg p g2 = Ok r2 /\
    r1 < r2.
Proof.
  intros Hwf H1 H2 Hsame Hlt.
  rewrite (global_to_local_present _ _ _ Hwf H1),
          (global_to_local_present _ _ _ Hwf H2).
  do 2 eexists. split; [reflexivity |]. split; [reflexivity |].
  rewrite <- Hsame.
  destruct (present_cases _ _ H1) as [Hin1 | [Hout1 Hel1]].
  - rewrite Hin1. lia.
  - rewrite Hout1. apply IndexSetFacts.is_element_In in Hel1.
    pose proof (index_within_set_lt _ _ _ Hel1 Hlt). lia.
Qed.

Lemma global_to_local_monotone_witness :
  exists r1 r2,
    global_to_local debug_build example_partitioner 4 = Ok r1 /\
    global_to_local debug_build example_partitioner 7 = Ok r2 /\
    r1 < r2.
Proof.
  exact (global_to_local_monotone debug_build example_partitioner 4 7
           eq_refl eq_refl eq_refl eq_refl eq_refl).
Defined.

(** X11. In a debug build, whatever [global_to_local] returns for a
    well-formed partitioner is a valid local index of an owned or ghost
    index, and [local_to_global] maps it back to the index asked for. *)
Theorem global_to_local_debug_sound (cfg : Config) (p : Partitioner) (g r : Z) :
  well_formed cfg p = true ->
  debug_mode cfg = true ->
  global_to_local cfg p g = Ok r ->
  present p g = true /\
  0 <= r < owned_count p + n_ghost_indices p /\
  local_to_global cfg p r = Ok g.
Proof.
  intros Hwf Hdebug Hres.
  destruct (well_formed_inv _ _ Hwf) as (Hfits & Hspace & Hasc & Hdisj & Hn).
  assert (0 <= n_ghost_indices_data p)
    by (rewrite Hn; unfold IndexSet.n_elements; lia).
  destruct (present p g) eqn:Hpres.
  2:{ unfold present, is_ghost_entry, ghost_indices in Hpres.
      destruct (in_local_range p g) eqn:Hin; [discriminate |].
      simpl in Hpres.
      rewrite (global_to_local_absent _ _ _ Hin Hpres), Hdebug in Hres.
      discriminate. }
  split; [reflexivity |].
  rewrite (global_to_local_present _ _ _ Hwf Hpres) in Hres.
  injection Hres as <-. unfold n_ghost_indices.
  destruct (present_cases _ _ Hpres) as [Hin | [Hout Hel]].
  - rewrite Hin. apply in_local_range_iff in Hin.
    split; [unfold owned_count; lia |].
    rewrite local_to_global_owned; [f_equal; lia | assumption |].
    unfold owned_count; lia.
  - rewrite Hout. apply IndexSetFacts.is_element_In in Hel.
    pose proof (IndexSetFacts.index_within_set_bound _ _ Hel) as Hrank.
    split; [unfold owned_count in *; destruct Hfits; lia |].
    destruct (local_to_global_ghost cfg p
                (owned_count p + IndexSet.index_within_set (ghost_indices_data p) g)
                Hwf) as (x & Hnth & ->); [lia |].
    f_equal.
    replace (owned_count p + IndexSet.index_within_set (ghost_indices_data p) g
             - owned_count p)
      with (IndexSet.index_within_set (ghost_indices_data p) g) in Hnth by lia.
    unfold IndexSet.index_within_set in Hnth. rewrite Nat2Z.id in Hnth.
    rewrite (IndexSetFacts.nth_index_within_set 0 _ _ Hasc Hel) in Hnth.
    congruence.
Qed.

Lemma global_to_local_debug_sound_witness :
  present example_partitioner 7 = true /\
  0 <= 4 < 3 + 2 /\
  local_to_global debug_build example_partitioner 4 = Ok 7.
Proof.
  exact (global_to_local_debug_sound debug_build example_partitioner 7 4
           eq_refl eq_refl eq_refl).
Defined.

(** X12. In an optimized build [global_to_local] raises no exception,
    whatever the partitioner and the index, and its result is a value of
    [unsigned int]. *)
Theorem global_to_local_optimized_total (cfg : Config) (p : Partitioner) (g : Z) :
  debug_mode cfg = false ->
  exists r,
    global_to_local cfg p g = Ok r /\ 0 <= r <= unsigned_int_max.
Proof.
  intros Hopt. unfold global_to_local, local_size, Assert. rewrite Hopt.
  cbn [bind].
  destruct (in_local_range p g).
  - eexists. split; [reflexivity | apply to_unsigned_int_range].
  - destruct (is_ghost_entry p g).
    + eexists. split; [reflexivity | apply to_unsigned_int_range].
    + eexists. split; [reflexivity |].
      rewrite invalid_unsigned_int_eq. unfold unsigned_int_max. lia.
Qed.

Lemma global_to_local_optimized_total_witness :
  exists r,
    global_to_local optimized_build wide_partitioner (2 ^ 40) = Ok r /\
    0 <= r <= unsigned_int_max.
Proof.
  exact (global_to_local_optimized_total optimized_build wide_partitioner
           (2 ^ 40) eq_refl).
Defined.

(** X13. On a well-formed partitioner every valid local index is mapped by
    [local_to_global] to an owned or ghost global index, and to an owned
    one exactly when the local index is below [local_size()]. *)
Theorem local_to_global_valid_index (cfg : Config) (p : Partitioner) (i : Z) :
  well_formed cfg p = true ->
  0 <= i < owned_count p + n_ghost_indices p ->
  exists g,
    local_to_global cfg p i = Ok g /\
    present p g = true /\
    in_local_range p g = (i <? owned_count p).
Proof.
  intros Hwf Hi.
  destruct (well_formed_inv _ _ Hwf) as (Hfits & Hspace & Hasc & Hdisj & Hn).
  destruct (local_to_global_valid _ _ _ Hwf Hi) as [[Hi' Hg] | [Hi' (g & Hnth & Hg)]].
  - eexists. split; [exact Hg |].
    assert (Hin : in_local_range p (fst (local_range_data p) + i) = true)
      by (apply in_local_range_iff; unfold owned_count in *; lia).
    unfold present. rewrite Hin. split; [reflexivity |].
    symmetry. apply Z.ltb_lt. assumption.
  - exists g. split; [exact Hg |].
    apply nth_error_In in Hnth.
    unfold present, is_ghost_entry, ghost_indices. rewrite (Hdisj _ Hnth).
    split; [now apply IndexSetFacts.is_element_In |].
    symmetry. apply Z.ltb_ge. assumption.
Qed.

Lemma local_to_global_valid_index_witness :
  exists g,
    local_to_global debug_build example_partitioner 3 = Ok g /\
    present example_partitioner g = true /\
    in_local_range example_partitioner g = false.
Proof.
  apply (local_to_global_valid_index debug_build example_partitioner 3).
  - reflexivity.
  - vm_compute. split; [discriminate | reflexivity].
Defined.

(** X14. On a well-formed partitioner the guard of [is_ghost_entry] is
    never needed: [is_ghost_entry(g)] agrees with the membership test of
    [ghost_indices()] for every global index. *)
Theorem is_ghost_entry_is_element (cfg : Config) (p : Partitioner) (g : Z) :
  well_formed cfg p = true ->
  is_ghost_entry p g = IndexSet.is_element (ghost_indices p) g.
Proof.
  intros Hwf.
  destruct (well_formed_inv _ _ Hwf) as (_ & _ & _ & Hdisj & _).
  unfold is_ghost_entry, ghost_indices.
  destruct (in_local_range p g) eqn:Hin; [| reflexivity].
  destruct (IndexSet.is_element (ghost_indices_data p) g) eqn:Hel; [| reflexivity].
  apply IndexSetFacts.is_element_In in Hel. apply Hdisj in Hel. congruence.
Qed.

Lemma is_ghost_entry_is_element_witness :
  is_ghost_entry example_partitioner 4 =
  IndexSet.is_element (ghost_indices example_partitioner) 4.
Proof.
  exact (is_ghost_entry_is_element debug_build example_partitioner 4 eq_refl).
Defined.
